(** * iot_iam: the local SQLite cache, the sync step and the facade guards

    A shallow embedding of [iot_iam/db.py] (class [DeviceDB]),
    [iot_iam/utils.py] ([validate_address], [build_response]) and of the
    parts of [iot_iam/core.py] (class [IAMClient]) that decide the
    properties stated at the end of the file.

    The SQLite engine and the web3 client are collaborators of the
    program.  The SQL statements the program issues are given the meaning
    SQLite documents for them; the web3 client is a parameter. *)

From Stdlib Require Import ZArith List String Bool Lia Sorted Permutation.
Import ListNotations.
Open Scope Z_scope.

(** ** Python outcomes *)

(** The exception classes that travel through the modelled code.
    [CacheError] is [iot_iam.exceptions.CacheError]; [ProgrammingError] is
    [sqlite3.ProgrammingError]; [OtherError] stands for any other
    [Exception]. *)
Inductive Exn : Type :=
| CacheError (msg : string)
| ProgrammingError (msg : string)
| OtherError (msg : string).

(** [str(e)] *)
Definition str_exn (e : Exn) : string :=
  match e with
  | CacheError m | ProgrammingError m | OtherError m => m
  end.

(** A call either returns a value or raises. *)
Inductive Py (A : Type) : Type :=
| Return (a : A)
| Raise (e : Exn).
Arguments Return {A} a.
Arguments Raise {A} e.

(** What the sqlite3 layer does with the statements of one cursor block
    ([execute], [fetchall], [commit]): they complete, or one of them raises
    (I/O error, locked or corrupt file, a value that cannot be bound). *)
Inductive Sqlite3 : Type :=
| Completes
| Fails (msg : string).

(** ** Tables (db.py, [_create_tables]) *)

Module Device.
(** [devices(address PRIMARY KEY, name, role, metadata, registeredAt,
    updatedAt)] *)
Record row : Type := mk {
  address : string;
  name : string;
  role : string;
  metadata : string;
  registeredAt : Z;
  updatedAt : Z
}.
End Device.

Module Log.
(** [logs(id PRIMARY KEY AUTOINCREMENT, device, success, reason,
    timestamp, txHash UNIQUE, createdAt)] *)
Record row : Type := mk {
  id : Z;
  device : string;
  success : Z;
  reason : string;
  timestamp : Z;
  txHash : string;
  createdAt : Z
}.
End Log.

(** [self.conn]: [None], an open [sqlite3.Connection], or one on which
    [close()] was called (it stays bound to [self.conn]). *)
Inductive Connection : Type :=
| NoConnection
| Connected
| Closed.

(** The state behind a [DeviceDB] object.  Both tables are kept in rowid
    order.  [logs_seq] is the [sqlite_sequence] entry of [logs], the
    largest id AUTOINCREMENT has handed out. *)
Record DeviceDB : Type := mkDB {
  conn : Connection;
  devices : list Device.row;
  logs : list Log.row;
  logs_seq : Z
}.

(** A [DeviceDB] on a new database file, after [__init__]. *)
Definition new_db : DeviceDB := mkDB Connected [] [] 0.

Definition set_devices (db : DeviceDB) (ds : list Device.row) : DeviceDB :=
  mkDB (conn db) ds (logs db) (logs_seq db).

Definition set_logs (db : DeviceDB) (ls : list Log.row) (seq : Z) : DeviceDB :=
  mkDB (conn db) (devices db) ls seq.

(** ** [_get_cursor] *)

(** The context manager: [CacheError] without a connection; [cursor()] on a
    closed connection raises before the [try]; an exception inside the block
    is answered by [rollback()] and re-raised as [CacheError]; otherwise the
    block's writes are committed. *)
Definition _get_cursor {A : Type} (io : Sqlite3) (db : DeviceDB)
    (body : DeviceDB -> A * DeviceDB) : Py A * DeviceDB :=
  match conn db with
  | NoConnection => (Raise (CacheError "Database connection not established"), db)
  | Closed => (Raise (ProgrammingError "Cannot operate on a closed database."), db)
  | Connected =>
      match io with
      | Fails msg =>
          (Raise (CacheError (String.append "Database operation failed: " msg)), db)
      | Completes => let (a, db') := body db in (Return a, db')
      end
  end.

(** ** The SQL statements *)

(** [INSERT OR REPLACE INTO devices (...) VALUES (?, ?, ?, ?, ?,
    strftime('%s','now'))]: the row in conflict on the primary key is
    deleted, the new row is added with a new rowid. *)
Definition sql_insert_or_replace_device (r : Device.row)
    (ds : list Device.row) : list Device.row :=
  filter (fun d => negb (String.eqb (Device.address d) (Device.address r))) ds
    ++ [r].

(** Does [logs] hold the UNIQUE key [h]? *)
Definition has_txHash (h : string) (ls : list Log.row) : bool :=
  existsb (fun l => String.eqb (Log.txHash l) h) ls.

(** [INSERT OR IGNORE INTO logs (device, success, reason, timestamp, txHash)
    VALUES (?, ?, ?, ?, ?)]: AUTOINCREMENT draws the next id first; a row in
    conflict on [txHash] makes the statement skip the insert (the id stays
    drawn); [createdAt] takes its default, the current time. *)
Definition sql_insert_or_ignore_log (now : Z) (device : string) (success : Z)
    (reason : string) (timestamp : Z) (tx_hash : string)
    (db : DeviceDB) : DeviceDB :=
  let new_id := logs_seq db + 1 in
  if has_txHash tx_hash (logs db)
  then set_logs db (logs db) new_id
  else set_logs db
         (logs db ++ [Log.mk new_id device success reason timestamp tx_hash now])
         new_id.

(** [ORDER BY timestamp DESC]: the only sort key is [timestamp].  The rows
    are produced by the scan of [idx_logs_timestamp], whose entries of equal
    timestamp follow each other by ascending rowid. *)
Fixpoint insert_by_timestamp (r : Log.row) (sorted : list Log.row)
    : list Log.row :=
  match sorted with
  | [] => [r]
  | x :: rest =>
      if Log.timestamp x <=? Log.timestamp r
      then r :: x :: rest
      else x :: insert_by_timestamp r rest
  end.

Fixpoint order_by_timestamp_desc (ls : list Log.row) : list Log.row :=
  match ls with
  | [] => []
  | r :: rest => insert_by_timestamp r (order_by_timestamp_desc rest)
  end.

(** [LIMIT ?]: a negative bound means no bound. *)
Definition sql_limit {A : Type} (limit : Z) (rows : list A) : list A :=
  if limit <? 0 then rows else firstn (Z.to_nat limit) rows.

(** ** The methods of [DeviceDB] *)

(** The [try: with self._get_cursor() ... except CacheError] frame shared by
    every method: [CacheError] becomes the method's fallback value, any other
    exception goes on to the caller. *)
Definition except_CacheError {A : Type} (fallback : A)
    (r : Py A * DeviceDB) : Py A * DeviceDB :=
  match r with
  | (Raise (CacheError _), db) => (Return fallback, db)
  | other => other
  end.

Definition int_of_bool (b : bool) : Z := if b then 1 else 0.

Definition insert_device (io : Sqlite3) (now : Z)
    (address name role metadata : string) (registered_at : Z)
    (db : DeviceDB) : Py bool * DeviceDB :=
  except_CacheError false
    (_get_cursor io db (fun d =>
       (true,
        set_devices d
          (sql_insert_or_replace_device
             (Device.mk address name role metadata registered_at now)
             (devices d))))).

Definition insert_log (io : Sqlite3) (now : Z)
    (device : string) (success : bool) (reason : string) (timestamp : Z)
    (tx_hash : string) (db : DeviceDB) : Py bool * DeviceDB :=
  except_CacheError false
    (_get_cursor io db (fun d =>
       (true,
        sql_insert_or_ignore_log now device (int_of_bool success) reason
          timestamp tx_hash d))).

Definition fetch_logs (io : Sqlite3) (limit : Z) (db : DeviceDB)
    : Py (list Log.row) * DeviceDB :=
  except_CacheError []
    (_get_cursor io db (fun d =>
       (sql_limit limit (order_by_timestamp_desc (logs d)), d))).

Definition get_device (io : Sqlite3) (address : string) (db : DeviceDB)
    : Py (option Device.row) * DeviceDB :=
  except_CacheError None
    (_get_cursor io db (fun d =>
       (find (fun r => String.eqb (Device.address r) address) (devices d), d))).

Definition get_device_logs (io : Sqlite3) (address : string) (limit : Z)
    (db : DeviceDB) : Py (list Log.row) * DeviceDB :=
  except_CacheError []
    (_get_cursor io db (fun d =>
       (sql_limit limit
          (order_by_timestamp_desc
             (filter (fun l => String.eqb (Log.device l) address) (logs d))),
        d))).

(** The dictionary [{'total_devices': .., 'total_logs': ..}]. *)
Record Stats : Type := mkStats {
  total_devices : Z;
  total_logs : Z
}.

Definition get_stats (io : Sqlite3) (db : DeviceDB) : Py Stats * DeviceDB :=
  except_CacheError (mkStats 0 0)
    (_get_cursor io db (fun d =>
       (mkStats (Z.of_nat (List.length (devices d)))
                (Z.of_nat (List.length (logs d))),
        d))).

Definition clear_logs (io : Sqlite3) (db : DeviceDB) : Py bool * DeviceDB :=
  except_CacheError false
    (_get_cursor io db (fun d => (true, set_logs d [] (logs_seq d)))).

Definition clear_devices (io : Sqlite3) (db : DeviceDB) : Py bool * DeviceDB :=
  except_CacheError false
    (_get_cursor io db (fun d => (true, set_devices d []))).

Definition close (db : DeviceDB) : DeviceDB :=
  match conn db with
  | NoConnection => db
  | _ => mkDB Closed (devices db) (logs db) (logs_seq db)
  end.

(** ** utils.py *)

(** A log entry as [get_logs] builds it from an event. *)
Record LogEntry : Type := mkLogEntry {
  device : string;
  success : bool;
  reason : string;
  timestamp : Z;
  tx_hash : string;
  block_number : Z
}.

(** Strings, integers and booleans: what the contract takes and returns. *)
Inductive Scalar : Type :=
| SStr (s : string)
| SInt (z : Z)
| SBool (b : bool).

(** The dictionary [get_device_info] builds. *)
Record DeviceInfo : Type := mkDeviceInfo {
  info_address : string;
  info_name : Scalar;
  info_role : Scalar;
  info_metadata : Scalar;
  info_registered_at : Scalar;
  info_is_registered : Scalar
}.

(** The Python values that are stored in a response dictionary. *)
Inductive Value : Type :=
| VAtom (a : Scalar)
| VLogs (l : list LogEntry)
| VRows (l : list Log.row)
| VInfo (d : DeviceInfo).

Abbreviation VStr s := (VAtom (SStr s)).
Abbreviation VInt z := (VAtom (SInt z)).
Abbreviation VBool b := (VAtom (SBool b)).

(** A [dict] with string keys, in insertion order. *)
Definition Dict : Type := list (string * Value).

Fixpoint dict_get (k : string) (d : Dict) : option Value :=
  match d with
  | [] => None
  | (k', v) :: rest => if String.eqb k' k then Some v else dict_get k rest
  end.

Fixpoint dict_set (k : string) (v : Value) (d : Dict) : Dict :=
  match d with
  | [] => [(k, v)]
  | (k', v') :: rest =>
      if String.eqb k' k then (k, v) :: rest else (k', v') :: dict_set k v rest
  end.

Definition dict_update (d kwargs : Dict) : Dict :=
  fold_left (fun acc kv => dict_set (fst kv) (snd kv) acc) kwargs d.

(** Truth value of an optional string: [None] and [''] are false. *)
Definition truthy (s : option string) : bool :=
  match s with
  | Some EmptyString | None => false
  | Some _ => true
  end.

Definition build_response (status : string) (data : option Value)
    (tx_hash message : option string) (kwargs : Dict) : Dict :=
  let response := [("status"%string, VStr status)] in
  let response :=
    match data with
    | Some v => dict_set "data" v response
    | None => response
    end in
  let response :=
    match tx_hash with
    | Some h => if truthy tx_hash then dict_set "tx_hash" (VStr h) response
                else response
    | None => response
    end in
  let response :=
    match message with
    | Some m => if truthy message then dict_set "message" (VStr m) response
                else response
    | None => response
    end in
  dict_update response kwargs.

(** [result['status'] == s] *)
Definition status_is (s : string) (result : Dict) : bool :=
  match dict_get "status" result with
  | Some (VStr s') => String.eqb s' s
  | _ => false
  end.

(** ** core.py: [get_logs] and [sync_cache] *)

(** One entry of [event_filter.get_all_entries()]: the event's [args]
    (a field may be absent) with its transaction hash and block number. *)
Record EventEntry : Type := mkEvent {
  args_device : option string;
  args_success : option bool;
  args_reason : option string;
  args_timestamp : option Z;
  transactionHash : string;
  blockNumber : Z
}.

(** What the contract answers to the event query of one [get_logs] call:
    none of the three event names exists, the filter raises, or the
    entries come back. *)
Inductive EventFilter : Type :=
| NoAccessEvent
| FilterRaises (e : Exn)
| AllEntries (events : list EventEntry).

Definition get_default {A : Type} (o : option A) (default : A) : A :=
  match o with
  | Some a => a
  | None => default
  end.

Definition log_entry_of (event_entry : EventEntry) : LogEntry :=
  mkLogEntry (get_default (args_device event_entry) ""%string)
             (get_default (args_success event_entry) true)
             (get_default (args_reason event_entry) ""%string)
             (get_default (args_timestamp event_entry) 0)
             (transactionHash event_entry)
             (blockNumber event_entry).

Definition get_logs (chain : EventFilter) : Dict :=
  match chain with
  | NoAccessEvent =>
      build_response "success" (Some (VLogs [])) None None
        [("count"%string, VInt 0)]
  | FilterRaises e =>
      build_response "error" None None (Some (str_exn e)) []
  | AllEntries events =>
      let logs := map log_entry_of events in
      build_response "success" (Some (VLogs logs)) None None
        [("count"%string, VInt (Z.of_nat (List.length logs)))]
  end.

(** The sqlite3 outcome and the clock reading met by the [k]-th cursor
    block of a call that opens several. *)
Record Env : Type := mkEnv {
  sqlite3_at : nat -> Sqlite3;
  time_at : nat -> Z
}.

(** An environment in which no statement fails. *)
Definition healthy (clock : nat -> Z) : Env := mkEnv (fun _ => Completes) clock.

(** [logs_result['data']] as the list the loop runs over. *)
Definition data_logs (result : Dict) : Py (list LogEntry) :=
  match dict_get "data" result with
  | Some (VLogs l) => Return l
  | Some _ => Raise (OtherError "object is not iterable")
  | None => Raise (OtherError "'data'")
  end.

(** The [for log in logs_result['data']] loop; the return value of
    [insert_log] is dropped. *)
Fixpoint insert_logs (env : Env) (k : nat) (entries : list LogEntry)
    (db : DeviceDB) : Py unit * DeviceDB :=
  match entries with
  | [] => (Return tt, db)
  | log :: rest =>
      match insert_log (sqlite3_at env k) (time_at env k) (device log)
              (success log) (reason log) (timestamp log) (tx_hash log) db with
      | (Return _, db') => insert_logs env (S k) rest db'
      | (Raise e, db') => (Raise e, db')
      end
  end.

Definition sync_cache (env : Env) (chain : EventFilter) (db : DeviceDB)
    : Dict * DeviceDB :=
  let logs_result := get_logs chain in
  let (r, db') :=
    if status_is "success" logs_result
    then match data_logs logs_result with
         | Return entries => insert_logs env 0 entries db
         | Raise e => (Raise e, db)
         end
    else (Return tt, db) in
  match r with
  | Return _ =>
      (build_response "success" None None (Some "Cache synced"%string) [], db')
  | Raise e =>
      (build_response "error" None None (Some (str_exn e)) [], db')
  end.

(** [get_cached_logs] *)
Definition get_cached_logs (io : Sqlite3) (limit : Z) (db : DeviceDB)
    : Dict * DeviceDB :=
  match fetch_logs io limit db with
  | (Return logs, db') =>
      (build_response "success" (Some (VRows logs)) None None [], db')
  | (Raise e, db') =>
      (build_response "error" None None (Some (str_exn e)) [], db')
  end.

(** ** core.py: the facade operations *)

(** A request that reaches the ledger: a signed transaction
    ([_send_transaction]) or a read-only [.call()]. *)
Inductive LedgerCall : Type :=
| Transact (function : string) (args : list Scalar)
| CallFunction (function : string) (args : list Scalar).

(** How the [try] block of [_send_transaction] ends: with the receipt of
    the transaction, with a [ContractLogicError], or with any other
    exception.  An exception can come before [send_raw_transaction] (reading
    the nonce, building, signing) or after it (waiting for the receipt):
    [submitted] tells whether the signed transaction had been handed to the
    node. *)
Inductive TxOutcome : Type :=
| Receipt (status : Z) (tx_hash : string) (gasUsed : Z)
| ContractLogicError (submitted : bool) (msg : string)
| TxRaises (submitted : bool) (msg : string).

Definition was_submitted (outcome : TxOutcome) : bool :=
  match outcome with
  | Receipt _ _ _ => true
  | ContractLogicError submitted _ => submitted
  | TxRaises submitted _ => submitted
  end.

(** The parts of an [IAMClient] the operations act on: the cache, and the
    requests sent to the ledger so far. *)
Record IAMClient : Type := mkClient {
  _cache_manager : DeviceDB;
  ledger_calls : list LedgerCall
}.

Definition sent (call : LedgerCall) (c : IAMClient) : IAMClient :=
  mkClient (_cache_manager c) (ledger_calls c ++ [call]).

Section Facade.

(** The web3 client and the deployed contract. *)

(** [Web3.to_checksum_address]; [None] when it raises [ValueError] or
    [TypeError]. *)
Variable to_checksum_address : string -> option string.
(** The names [hasattr(self.contract.functions, name)] finds. *)
Variable contract_functions : list string.
(** The exception [self.contract.functions.<name>] raises for a name the
    ABI lacks (the [AttributeError] that makes [hasattr] answer [False]). *)
Variable function_not_found : string -> Exn.
(** Build, sign, send and wait for the receipt, after the given
    requests. *)
Variable transact : list LedgerCall -> LedgerCall -> TxOutcome.
(** A read-only call that returns one value, or a tuple. *)
Variable call_value : list LedgerCall -> LedgerCall -> Py Scalar.
Variable call_tuple : list LedgerCall -> LedgerCall -> Py (list Scalar).

Definition validate_address (address : string) : bool :=
  match to_checksum_address address with
  | Some _ => true
  | None => false
  end.

Definition format_address (address : string) : Py string :=
  match to_checksum_address address with
  | Some a => Return a
  | None => Raise (OtherError "invalid address")
  end.

Definition hasattr (name : string) : bool :=
  existsb (String.eqb name) contract_functions.

Definition invalid_address : Dict :=
  build_response "error" None None (Some "Invalid Ethereum address"%string) [].

(** [self.contract.functions.<name>], looked up by the caller of
    [_send_transaction] while it builds the argument list, outside any
    [try]. *)
Definition contract_function (name : string) : Py unit :=
  if hasattr name then Return tt else Raise (function_not_found name).

(** The request enters [ledger_calls] only when the transaction was
    submitted. *)
Definition _send_transaction (function : string) (args : list Scalar)
    (c : IAMClient) : Dict * IAMClient :=
  let request := Transact function args in
  let outcome := transact (ledger_calls c) request in
  let response :=
    match outcome with
    | Receipt status tx_hash gasUsed =>
        if status =? 1
        then build_response "success" None (Some tx_hash) None
               [("gas_used"%string, VInt gasUsed)]
        else build_response "failed" None (Some tx_hash)
               (Some "Transaction reverted"%string) []
    | ContractLogicError _ msg =>
        build_response "error" None None
          (Some (String.append "Contract error: " msg)) []
    | TxRaises _ msg => build_response "error" None None (Some msg) []
    end in
  (response, if was_submitted outcome then sent request c else c).

(** The four operations that send a transaction: the guard; then the
    arguments of the call, left to right: the lookup of the contract
    function, which raises when the ABI lacks it, and [format_address];
    then [_send_transaction]. *)
Definition guarded_transaction (function address : string)
    (rest : list Scalar) (c : IAMClient) : Py Dict * IAMClient :=
  if negb (validate_address address)
  then (Return invalid_address, c)
  else match contract_function function with
       | Raise e => (Raise e, c)
       | Return _ =>
           match format_address address with
           | Raise e => (Raise e, c)
           | Return a =>
               let (result, c') :=
                 _send_transaction function (SStr a :: rest) c in
               (Return result, c')
           end
       end.

(** [log_access]: no guard; the lookup of [logAccess], then
    [_send_transaction]. *)
Definition log_access (reason : string) (c : IAMClient)
    : Py Dict * IAMClient :=
  match contract_function "logAccess" with
  | Raise e => (Raise e, c)
  | Return _ =>
      let (result, c') := _send_transaction "logAccess" [SStr reason] c in
      (Return result, c')
  end.

Definition register_device (address name role metadata : string)
    (c : IAMClient) : Py Dict * IAMClient :=
  guarded_transaction "registerDevice" address
    [SStr name; SStr role; SStr metadata] c.

Definition grant_access (address : string) (expiry : Z) (c : IAMClient)
    : Py Dict * IAMClient :=
  guarded_transaction "grantAccess" address [SInt expiry] c.

Definition revoke_access (address : string) (c : IAMClient)
    : Py Dict * IAMClient :=
  guarded_transaction "revokeAccess" address [] c.

Definition assign_role (address role : string) (c : IAMClient)
    : Py Dict * IAMClient :=
  guarded_transaction "assignRole" address [SStr role] c.

(** The first of [names] the contract has. *)
Definition first_function (names : list string) : option string :=
  find hasattr names.

(** [except Exception as e: return build_response(status='error',
    message=str(e))] *)
Definition error_of (e : Exn) : Dict :=
  build_response "error" None None (Some (str_exn e)) [].

Definition check_access (address : string) (c : IAMClient)
    : Py Dict * IAMClient :=
  if negb (validate_address address)
  then (Return invalid_address, c)
  else
    match first_function ["checkAccess"; "hasAccess"; "isAuthorized"]%string with
    | None =>
        (Return (build_response "error" None None
                   (Some "Access check function not found in contract"%string)
                   []), c)
    | Some f =>
        match format_address address with
        | Raise e => (Return (error_of e), c)
        | Return a =>
            let request := CallFunction f [SStr a] in
            match call_value (ledger_calls c) request with
            | Return has_access =>
                (Return (build_response "success" None None None
                           [("has_access"%string, VAtom has_access)]),
                 sent request c)
            | Raise e => (Return (error_of e), sent request c)
            end
        end
    end.

(** [device[i] if len(device) > i else default] *)
Definition item_or (device : list Scalar) (i : nat) (default : Scalar)
    : Scalar :=
  nth i device default.

Definition get_device_info (address : string) (c : IAMClient)
    : Py Dict * IAMClient :=
  if negb (validate_address address)
  then (Return invalid_address, c)
  else
    match first_function ["getDevice"; "devices"; "getDeviceInfo"]%string with
    | None =>
        (Return (build_response "error" None None
                   (Some "Device info function not found in contract"%string)
                   []), c)
    | Some f =>
        match format_address address with
        | Raise e => (Return (error_of e), c)
        | Return a =>
            let request := CallFunction f [SStr a] in
            match call_tuple (ledger_calls c) request with
            | Return device =>
                let device_info :=
                  mkDeviceInfo address
                    (item_or device 0 (SStr ""))
                    (item_or device 1 (SStr ""))
                    (item_or device 2 (SStr ""))
                    (item_or device 3 (SInt 0))
                    (item_or device 4 (SBool false)) in
                (Return (build_response "success" (Some (VInfo device_info))
                           None None []),
                 sent request c)
            | Raise e => (Return (error_of e), sent request c)
            end
        end
    end.

End Facade.

(** ** Sequences of writes *)

(** The arguments of one [insert_log] call, with the sqlite3 outcome and
    the clock reading it meets. *)
Record InsertLog : Type := mkInsertLog {
  il_io : Sqlite3;
  il_now : Z;
  il_device : string;
  il_success : bool;
  il_reason : string;
  il_timestamp : Z;
  il_tx_hash : string
}.

Definition insert_log_call (db : DeviceDB) (a : InsertLog) : DeviceDB :=
  snd (insert_log (il_io a) (il_now a) (il_device a) (il_success a)
         (il_reason a) (il_timestamp a) (il_tx_hash a) db).

Definition insert_log_calls (calls : list InsertLog) (db : DeviceDB)
    : DeviceDB :=
  fold_left insert_log_call calls db.

(** The arguments of one [insert_device] call. *)
Record InsertDevice : Type := mkInsertDevice {
  id_io : Sqlite3;
  id_now : Z;
  id_address : string;
  id_name : string;
  id_role : string;
  id_metadata : string;
  id_registered_at : Z
}.

Definition insert_device_call (db : DeviceDB) (a : InsertDevice) : DeviceDB :=
  snd (insert_device (id_io a) (id_now a) (id_address a) (id_name a)
         (id_role a) (id_metadata a) (id_registered_at a) db).

Definition insert_device_calls (calls : list InsertDevice) (db : DeviceDB)
    : DeviceDB :=
  fold_left insert_device_call calls db.

(** ** The properties *)

(** No two rows of [logs] share a [txHash]. *)
Definition txHash_unique (db : DeviceDB) : Prop :=
  NoDup (map Log.txHash (logs db)).

(** No two rows of [devices] share an [address]. *)
Definition address_unique (db : DeviceDB) : Prop :=
  NoDup (map Device.address (devices db)).

(** The rows of [devices] stored for [address]. *)
Definition rows_for (address : string) (db : DeviceDB) : list Device.row :=
  filter (fun r => String.eqb (Device.address r) address) (devices db).

(** [_get_cursor] raises [CacheError]: there is no connection, or a
    statement of the block fails. *)
Definition storage_failure (io : Sqlite3) (db : DeviceDB) : Prop :=
  conn db = NoConnection \/ (conn db = Connected /\ exists msg, io = Fails msg).

(** Descending by [timestamp]; rows of equal timestamp in any order. *)
Definition timestamp_desc (a b : Log.row) : Prop :=
  Log.timestamp a >= Log.timestamp b.

(** Descending by [timestamp], rows of equal timestamp descending by
    [id]. *)
Definition timestamp_then_id_desc (a b : Log.row) : Prop :=
  Log.timestamp a > Log.timestamp b \/
  (Log.timestamp a = Log.timestamp b /\ Log.id a > Log.id b).

(** ** Stores used as examples *)

Local Open Scope string_scope.

(** One log, [tx1]. *)
Definition db_tx1 : DeviceDB :=
  snd (insert_log Completes 1000 "0xA" true "door opened" 10 "tx1" new_db).

(** Two logs of equal timestamp. *)
Definition db_ties : DeviceDB :=
  insert_log_calls
    [mkInsertLog Completes 1000 "0xA" true "first" 5 "tx1";
     mkInsertLog Completes 1001 "0xB" true "second" 5 "tx2"] new_db.

(** Three logs with timestamps 100, 300, 200, in that order. *)
Definition db_three : DeviceDB :=
  insert_log_calls
    [mkInsertLog Completes 1000 "0xA" true "a" 100 "tx1";
     mkInsertLog Completes 1001 "0xB" false "b" 300 "tx2";
     mkInsertLog Completes 1002 "0xA" true "c" 200 "tx3"] new_db.

(** Device [0xA] cached with name [X] and registration time 1. *)
Definition db_device_X : DeviceDB :=
  snd (insert_device Completes 1000 "0xA" "X" "sensor" "" 1 new_db).

(** Two events of the ledger, and the same events in another order, one
    of them repeated. *)
Definition event_tx1 : EventEntry :=
  mkEvent (Some "0xA") (Some true) (Some "door opened") (Some 10) "tx1" 7.

Definition event_tx2 : EventEntry :=
  mkEvent (Some "0xB") None (Some "gate") (Some 20) "tx2" 8.

(** [Web3.to_checksum_address] cut down to a length test, for examples. *)
Definition length_42 (address : string) : option string :=
  if (String.length address =? 42)%nat then Some address else None.

Local Close Scope string_scope.

(** ** db.py: the remaining methods *)

(** [ORDER BY name]: ascending in the byte order of the BINARY collation;
    rows of equal name stay in rowid order. *)
Fixpoint insert_by_name (r : Device.row) (sorted : list Device.row)
    : list Device.row :=
  match sorted with
  | [] => [r]
  | x :: rest =>
      if String.leb (Device.name r) (Device.name x)
      then r :: x :: rest
      else x :: insert_by_name r rest
  end.

Fixpoint order_by_name (ds : list Device.row) : list Device.row :=
  match ds with
  | [] => []
  | r :: rest => insert_by_name r (order_by_name rest)
  end.

Definition fetch_all_devices (io : Sqlite3) (db : DeviceDB)
    : Py (list Device.row) * DeviceDB :=
  except_CacheError []
    (_get_cursor io db (fun d => (order_by_name (devices d), d))).

(** The dictionary [CacheManager.sync_device] reads with [.get]. *)
Record DeviceDict : Type := mkDeviceDict {
  dd_address : option string;
  dd_name : option string;
  dd_role : option string;
  dd_metadata : option string;
  dd_registered_at : option Z
}.

Definition sync_device (io : Sqlite3) (now : Z) (device_info : DeviceDict)
    (db : DeviceDB) : Py bool * DeviceDB :=
  insert_device io now
    (get_default (dd_address device_info) ""%string)
    (get_default (dd_name device_info) ""%string)
    (get_default (dd_role device_info) ""%string)
    (get_default (dd_metadata device_info) ""%string)
    (get_default (dd_registered_at device_info) 0)
    db.

(** The dictionary [CacheManager.sync_log] reads with [.get]. *)
Record LogDict : Type := mkLogDict {
  ld_device : option string;
  ld_success : option bool;
  ld_reason : option string;
  ld_timestamp : option Z;
  ld_tx_hash : option string
}.

Definition sync_log (io : Sqlite3) (now : Z) (log_entry : LogDict)
    (db : DeviceDB) : Py bool * DeviceDB :=
  insert_log io now
    (get_default (ld_device log_entry) ""%string)
    (get_default (ld_success log_entry) false)
    (get_default (ld_reason log_entry) ""%string)
    (get_default (ld_timestamp log_entry) 0)
    (get_default (ld_tx_hash log_entry) ""%string)
    db.

(** One operation on the store, with the environment it meets. *)
Inductive DbOp : Type :=
| OpInsertDevice (a : InsertDevice)
| OpInsertLog (a : InsertLog)
| OpSyncCache (env : Env) (chain : EventFilter)
| OpClearLogs (io : Sqlite3)
| OpClearDevices (io : Sqlite3)
| OpClose.

Definition db_step (db : DeviceDB) (op : DbOp) : DeviceDB :=
  match op with
  | OpInsertDevice a => insert_device_call db a
  | OpInsertLog a => insert_log_call db a
  | OpSyncCache env chain => snd (sync_cache env chain db)
  | OpClearLogs io => snd (clear_logs io db)
  | OpClearDevices io => snd (clear_devices io db)
  | OpClose => close db
  end.

Definition db_steps (ops : list DbOp) (db : DeviceDB) : DeviceDB :=
  fold_left db_step ops db.

(** The ids of [logs] ascend in rowid order and none exceeds the
    [sqlite_sequence] entry. *)
Definition ids_ascending (db : DeviceDB) : Prop :=
  StronglySorted Z.lt (map Log.id (logs db)) /\
  Forall (fun i => i <= logs_seq db) (map Log.id (logs db)).

(** The schema's three constraints together. *)
Definition store_ok (db : DeviceDB) : Prop :=
  txHash_unique db /\ address_unique db /\ ids_ascending db.

(** [db'] comes after [db]: the sequence has not gone back, and a row of
    [db'] that [db] does not hold has an id above every id handed out up to
    [db]. *)
Definition extends (db db' : DeviceDB) : Prop :=
  logs_seq db <= logs_seq db' /\
  forall r, In r (logs db') -> In r (logs db) \/ logs_seq db < Log.id r.

(** The entries a [get_logs] response carries in [data]. *)
Definition entries_of (chain : EventFilter) : list LogEntry :=
  match chain with
  | AllEntries events => map log_entry_of events
  | _ => []
  end.

(** Row [r] of [logs] holds event [event] as [get_logs] reads it: an
    argument the event lacks takes the default of [.get], and [success] is
    stored as 0 or 1. *)
Definition cached_from (event : EventEntry) (r : Log.row) : Prop :=
  Log.device r = get_default (args_device event) ""%string /\
  Log.success r = int_of_bool (get_default (args_success event) true) /\
  Log.reason r = get_default (args_reason event) ""%string /\
  Log.timestamp r = get_default (args_timestamp event) 0 /\
  Log.txHash r = transactionHash event.

(** ** utils.py: [truncate_address] *)

(** [s[:stop]] *)
Definition slice_to (s : string) (stop : Z) : string :=
  let n := Z.of_nat (String.length s) in
  let stop' := if stop <? 0 then Z.max 0 (n + stop) else Z.min stop n in
  String.substring 0 (Z.to_nat stop') s.

(** [s[start:]] *)
Definition slice_from (s : string) (start : Z) : string :=
  let n := Z.of_nat (String.length s) in
  let start' := if start <? 0 then Z.max 0 (n + start) else Z.min start n in
  String.substring (Z.to_nat start') (Z.to_nat (n - start')) s.

Definition truncate_address (address : string) (chars : Z) : string :=
  if Z.of_nat (String.length address) <=? chars * 2
  then address
  else String.append (slice_to address chars)
         (String.append "..." (slice_from address (- chars))).

(** The keys [build_response] writes itself; Python binds them to the named
    parameters, so they never arrive in [kwargs]. *)
Definition reserved_keys : list string :=
  ["status"; "data"; "tx_hash"; "message"]%string.

(** A facade call made from client [c] left the cache as it was and sent
    at most one request to the ledger. *)
Definition quiet (c : IAMClient) (r : Py Dict * IAMClient) : Prop :=
  _cache_manager (snd r) = _cache_manager c /\
  (ledger_calls (snd r) = ledger_calls c \/
   exists request, ledger_calls (snd r) = ledger_calls c ++ [request]).

(** A facade call answered from client [c]: it was quiet and returned a
    response. *)
Definition answered (c : IAMClient) (r : Py Dict * IAMClient) : Prop :=
  (exists response, fst r = Return response) /\ quiet c r.

(** ** config.py *)

(** [os.environ] *)
Definition Environ : Type := string -> option string.

Definition setenv (key value : string) (environ : Environ) : Environ :=
  fun k => if String.eqb k key then Some value else environ k.

(** [ConfigurationError], and the [ValueError] of [int()]. *)
Inductive ConfigExn : Type :=
| ConfigurationError (msg : string)
| ValueError.

Record Config : Type := mkConfig {
  rpc_url : option string;
  private_key : option string;
  contract_address : option string;
  chain_id : Z;
  gas_limit : Z;
  abi_path : string
}.

(** Truth value of a configuration entry: [None] and [''] are false. *)
Definition is_set (o : option string) : bool := truthy o.

Definition _validate (c : Config) : option ConfigExn :=
  if negb (is_set (rpc_url c))
  then Some (ConfigurationError "RPC_URL is required in environment variables")
  else if negb (is_set (private_key c))
  then Some (ConfigurationError
               "PRIVATE_KEY is required in environment variables")
  else if negb (is_set (contract_address c))
  then Some (ConfigurationError
               "CONTRACT_ADDRESS is required in environment variables")
  else None.

Definition is_valid (c : Config) : bool :=
  is_set (rpc_url c) && is_set (private_key c) && is_set (contract_address c).

(** The builder's fields. *)
Record ConfigBuilder : Type := mkBuilder {
  _rpc_url : option string;
  _private_key : option string;
  _contract_address : option string;
  _chain_id : Z;
  _gas_limit : Z
}.

(** [ConfigBuilder()] *)
Definition new_builder : ConfigBuilder := mkBuilder None None None 1337 3000000.

Definition with_rpc_url (url : string) (b : ConfigBuilder) : ConfigBuilder :=
  mkBuilder (Some url) (_private_key b) (_contract_address b) (_chain_id b)
    (_gas_limit b).

Definition with_private_key (key : string) (b : ConfigBuilder)
    : ConfigBuilder :=
  mkBuilder (_rpc_url b) (Some key) (_contract_address b) (_chain_id b)
    (_gas_limit b).

Definition with_contract_address (address : string) (b : ConfigBuilder)
    : ConfigBuilder :=
  mkBuilder (_rpc_url b) (_private_key b) (Some address) (_chain_id b)
    (_gas_limit b).

Definition with_chain_id (n : Z) (b : ConfigBuilder) : ConfigBuilder :=
  mkBuilder (_rpc_url b) (_private_key b) (_contract_address b) n
    (_gas_limit b).

Definition with_gas_limit (n : Z) (b : ConfigBuilder) : ConfigBuilder :=
  mkBuilder (_rpc_url b) (_private_key b) (_contract_address b) (_chain_id b)
    n.

Section Configuration.

(** [load_dotenv(env_file)] acting on [os.environ]. *)
Variable load_dotenv : string -> Environ -> Environ.
(** [int(s)] on a string, [None] when it raises [ValueError]; [str(n)]. *)
Variable int_of_str : string -> option Z.
Variable str_of_int : Z -> string.

(** [int(os.getenv(key, default))] *)
Definition getenv_int (environ : Environ) (key : string) (default : Z)
    : ConfigExn + Z :=
  match environ key with
  | None => inr default
  | Some s =>
      match int_of_str s with
      | Some n => inr n
      | None => inl ValueError
      end
  end.

(** [Config(env_file)]: the outcome, and [os.environ] after the call. *)
Definition Config_init (env_file : string) (environ : Environ)
    : (ConfigExn + Config) * Environ :=
  let environ := load_dotenv env_file environ in
  match getenv_int environ "CHAIN_ID" 1337 with
  | inl e => (inl e, environ)
  | inr chain =>
      match getenv_int environ "GAS_LIMIT" 3000000 with
      | inl e => (inl e, environ)
      | inr gas =>
          let c := mkConfig (environ "RPC_URL"%string)
                     (environ "PRIVATE_KEY"%string)
                     (environ "CONTRACT_ADDRESS"%string)
                     chain gas
                     (get_default (environ "ABI_PATH"%string) "ABI.json"%string) in
          match _validate c with
          | Some e => (inl e, environ)
          | None => (inr c, environ)
          end
      end
  end.

(** [os.environ[key] = value] when [value] is set and not empty. *)
Definition setenv_if (key : string) (value : option string)
    (environ : Environ) : Environ :=
  match value with
  | Some v => if truthy value then setenv key v environ else environ
  | None => environ
  end.

Definition build (b : ConfigBuilder) (environ : Environ)
    : (ConfigExn + Config) * Environ :=
  let environ := setenv_if "RPC_URL" (_rpc_url b) environ in
  let environ := setenv_if "PRIVATE_KEY" (_private_key b) environ in
  let environ := setenv_if "CONTRACT_ADDRESS" (_contract_address b) environ in
  let environ := setenv "CHAIN_ID" (str_of_int (_chain_id b)) environ in
  let environ := setenv "GAS_LIMIT" (str_of_int (_gas_limit b)) environ in
  Config_init ".env" environ.

End Configuration.

(** Stand-ins for [int] and [str] in examples: the two chain ids and gas
    limits used there. *)
Definition example_str (n : Z) : string :=
  if n =? 1337 then "1337"
  else if n =? 3000000 then "3000000"
  else if n =? 5 then "5" else "0".

Definition example_int (s : string) : option Z :=
  if String.eqb s "1337" then Some 1337
  else if String.eqb s "3000000" then Some 3000000
  else if String.eqb s "5" then Some 5
  else if String.eqb s "0" then Some 0 else None.

(** ** Lemmas on the store *)

Ltac cursor :=
  unfold insert_log, insert_device, fetch_logs, get_device, get_device_logs,
    get_stats, except_CacheError, _get_cursor.

Lemma has_txHash_In (h : string) (ls : list Log.row) :
  has_txHash h ls = true <-> In h (map Log.txHash ls).
Proof.
  unfold has_txHash. rewrite existsb_exists, in_map_iff.
  split; intros [l [H1 H2]]; exists l.
  - apply String.eqb_eq in H2. auto.
  - rewrite H1, String.eqb_refl. auto.
Qed.

Lemma has_txHash_app (h : string) (l1 l2 : list Log.row) :
  has_txHash h (l1 ++ l2) = has_txHash h l1 || has_txHash h l2.
Proof. unfold has_txHash. apply existsb_app. Qed.

Lemma insert_log_completes db now d s r t h :
  conn db = Connected ->
  insert_log Completes now d s r t h db =
  (Return true, sql_insert_or_ignore_log now d (int_of_bool s) r t h db).
Proof. intros Hc. cursor. rewrite Hc. reflexivity. Qed.

Lemma insert_log_unavailable io now d s r t h db :
  conn db <> Connected \/ (exists msg, io = Fails msg) ->
  snd (insert_log io now d s r t h db) = db.
Proof.
  intros H. cursor.
  destruct (conn db) eqn:Hc; try reflexivity.
  destruct H as [H | [msg ->]]; [congruence | reflexivity].
Qed.

(** [insert_log] leaves [logs] as it is, or adds one row whose [txHash] was
    not there; it never touches [devices] or the connection. *)
Lemma insert_log_effect io now d s r t h db :
  let db' := snd (insert_log io now d s r t h db) in
  conn db' = conn db /\ devices db' = devices db /\
  (logs db' = logs db \/
   (has_txHash h (logs db) = false /\
    logs db' =
    logs db ++ [Log.mk (logs_seq db + 1) d (int_of_bool s) r t h now])).
Proof.
  cursor. destruct (conn db) eqn:Hc; simpl; auto.
  destruct io; simpl; auto.
  unfold sql_insert_or_ignore_log.
  destruct (has_txHash h (logs db)) eqn:Hh; simpl; auto.
Qed.

Lemma insert_log_unique io now d s r t h db :
  txHash_unique db -> txHash_unique (snd (insert_log io now d s r t h db)).
Proof.
  unfold txHash_unique. intros Hu.
  destruct (insert_log_effect io now d s r t h db) as (_ & _ & [-> | [Hh ->]]).
  - exact Hu.
  - rewrite map_app. simpl.
    assert (Hn : ~ In h (map Log.txHash (logs db))).
    { rewrite <- has_txHash_In, Hh. discriminate. }
    clear Hh. induction (map Log.txHash (logs db)) as [|x xs IH]; simpl.
    + constructor; [intros [] | constructor].
    + inversion Hu; subst. constructor.
      * rewrite in_app_iff. intros [Hx | [Hx | []]]; [auto|].
        subst. apply Hn. left. reflexivity.
      * apply IH; auto. intros Hx. apply Hn. right. exact Hx.
Qed.

Lemma insert_log_calls_conn calls db :
  conn (insert_log_calls calls db) = conn db.
Proof.
  revert db. induction calls as [|a calls IH]; intros db; simpl; auto.
  unfold insert_log_calls in *. rewrite IH. unfold insert_log_call.
  apply insert_log_effect.
Qed.

Lemma insert_log_calls_unique calls db :
  txHash_unique db -> txHash_unique (insert_log_calls calls db).
Proof.
  revert db. induction calls as [|a calls IH]; intros db Hu; simpl; auto.
  apply IH. apply insert_log_unique. exact Hu.
Qed.

(** ** Deduplication of logs *)

(** C1. Whatever [insert_log] calls are made on a store whose [txHash]
    values are distinct, they stay distinct: at most one row per [txHash].
    On the store so reached, inserting an entry whose [txHash] is already
    there returns [True] (no error) and leaves the rows of [logs], with
    their [reason], [timestamp] and every other column, as they were. *)
Theorem insert_log_one_row_per_txHash :
  forall (calls : list InsertLog) (db : DeviceDB),
    conn db = Connected ->
    txHash_unique db ->
    let db' := insert_log_calls calls db in
    txHash_unique db' /\
    forall now d s r t h,
      has_txHash h (logs db') = true ->
      fst (insert_log Completes now d s r t h db') = Return true /\
      logs (snd (insert_log Completes now d s r t h db')) = logs db'.
Proof.
  intros calls db Hc Hu db'. split.
  - apply insert_log_calls_unique. exact Hu.
  - intros now d s r t h Hh.
    assert (Hc' : conn db' = Connected).
    { unfold db'. rewrite insert_log_calls_conn. exact Hc. }
    rewrite (insert_log_completes db' now d s r t h Hc'). simpl.
    split; [reflexivity|].
    unfold sql_insert_or_ignore_log. rewrite Hh. reflexivity.
Qed.

Lemma insert_log_one_row_per_txHash_witness :
  let calls :=
    [mkInsertLog Completes 1000 "0xA" true "door opened" 10 "tx1";
     mkInsertLog Completes 1001 "0xA" true "another reason" 11 "tx1"]%string in
  conn new_db = Connected /\ txHash_unique new_db /\
  map Log.reason (logs (insert_log_calls calls new_db)) = ["door opened"%string] /\
  txHash_unique (insert_log_calls calls new_db) /\
  (fst (insert_log Completes 1002 "0xB" false "third reason" 12 "tx1"
          (insert_log_calls calls new_db)) = Return true /\
   logs (snd (insert_log Completes 1002 "0xB" false "third reason" 12 "tx1"
                (insert_log_calls calls new_db))) =
   logs (insert_log_calls calls new_db)).
Proof.
  intros calls.
  assert (Hc : conn new_db = Connected) by reflexivity.
  assert (Hu : txHash_unique new_db) by constructor.
  split; [exact Hc|]. split; [exact Hu|]. split; [reflexivity|].
  split.
  - exact (proj1 (insert_log_one_row_per_txHash calls new_db Hc Hu)).
  - exact (proj2 (insert_log_one_row_per_txHash calls new_db Hc Hu)
             1002 "0xB"%string false "third reason"%string 12 "tx1"%string
             eq_refl).
Defined.

(** C2 (the code departs from it). When the fetch fails, [get_logs] answers
    with status [error]; [sync_cache] then skips the inserts, leaves the
    store as it is, and returns the [success] response. *)
Theorem sync_cache_fetch_failure_reports_success :
  forall (env : Env) (e : Exn) (db : DeviceDB),
    status_is "success" (get_logs (FilterRaises e)) = false /\
    sync_cache env (FilterRaises e) db =
    (build_response "success" None None (Some "Cache synced"%string) [], db) /\
    status_is "success" (fst (sync_cache env (FilterRaises e) db)) = true.
Proof.
  intros env e db.
  assert (Hs : status_is "success" (get_logs (FilterRaises e)) = false).
  { unfold get_logs, build_response.
    destruct (truthy (Some (str_exn e))); reflexivity. }
  split; [exact Hs|].
  unfold sync_cache. rewrite Hs. split; reflexivity.
Qed.

(** C3, as the claim states it: the value [insert_log] returns for a
    [txHash] already stored differs from the one it returns for a new
    [txHash].  It does not: both calls return [True]. *)
Lemma insert_log_duplicate_not_distinguished :
  has_txHash "tx1" (logs db_tx1) = true /\
  has_txHash "tx2" (logs db_tx1) = false /\
  ~ (fst (insert_log Completes 2000 "0xA" true "again" 10 "tx1" db_tx1) <>
     fst (insert_log Completes 2000 "0xA" true "again" 10 "tx2" db_tx1)).
Proof.
  split; [reflexivity|]. split; [reflexivity|].
  intros H. apply H. reflexivity.
Qed.

(** C3, amended. On a connected store whose statements complete,
    [insert_log] returns [True] both when the [txHash] is already stored
    (the rows are left as they are) and when it is new (one row is added):
    success in both cases, and the same value. *)
Theorem insert_log_returns_true_either_way :
  forall (db : DeviceDB) now d s r t h,
    conn db = Connected ->
    fst (insert_log Completes now d s r t h db) = Return true /\
    (has_txHash h (logs db) = true ->
     logs (snd (insert_log Completes now d s r t h db)) = logs db) /\
    (has_txHash h (logs db) = false ->
     logs (snd (insert_log Completes now d s r t h db)) =
     logs db ++ [Log.mk (logs_seq db + 1) d (int_of_bool s) r t h now]).
Proof.
  intros db now d s r t h Hc.
  rewrite (insert_log_completes db now d s r t h Hc). simpl.
  unfold sql_insert_or_ignore_log.
  split; [reflexivity|]. split; intros ->; reflexivity.
Qed.

Lemma insert_log_returns_true_either_way_witness :
  conn db_tx1 = Connected /\
  fst (insert_log Completes 2000 "0xA" true "again" 10 "tx1" db_tx1) =
  Return true.
Proof.
  assert (Hc : conn db_tx1 = Connected) by reflexivity.
  split; [exact Hc|].
  exact (proj1 (insert_log_returns_true_either_way db_tx1 2000 "0xA"%string
                  true "again"%string 10 "tx1"%string Hc)).
Defined.

(** ** Ordering and limit of [fetch_logs] *)

Lemma insert_by_timestamp_perm r l :
  Permutation (insert_by_timestamp r l) (r :: l).
Proof.
  induction l as [|x l IH]; simpl; [reflexivity|].
  destruct (Log.timestamp x <=? Log.timestamp r); [reflexivity|].
  rewrite IH. apply perm_swap.
Qed.

Lemma order_by_timestamp_desc_perm l :
  Permutation (order_by_timestamp_desc l) l.
Proof.
  induction l as [|r l IH]; simpl; [reflexivity|].
  rewrite insert_by_timestamp_perm. constructor. exact IH.
Qed.

Lemma insert_by_timestamp_sorted r l :
  StronglySorted timestamp_desc l ->
  StronglySorted timestamp_desc (insert_by_timestamp r l).
Proof.
  induction l as [|x l IH]; intros Hs; simpl.
  - constructor; constructor.
  - inversion Hs as [|? ? Hl Hx]; subst.
    destruct (Log.timestamp x <=? Log.timestamp r) eqn:Hle.
    + apply Z.leb_le in Hle. constructor; [exact Hs|].
      constructor; [unfold timestamp_desc; lia|].
      eapply Forall_impl; [|exact Hx].
      unfold timestamp_desc. intros a Ha. lia.
    + apply Z.leb_gt in Hle. constructor; [apply IH; exact Hl|].
      eapply Permutation_Forall;
        [symmetry; apply insert_by_timestamp_perm|].
      constructor; [unfold timestamp_desc; lia | exact Hx].
Qed.

Lemma order_by_timestamp_desc_sorted l :
  StronglySorted timestamp_desc (order_by_timestamp_desc l).
Proof.
  induction l as [|r l IH]; simpl; [constructor|].
  apply insert_by_timestamp_sorted. exact IH.
Qed.

Lemma fetch_logs_completes limit db :
  conn db = Connected ->
  fetch_logs Completes limit db =
  (Return (sql_limit limit (order_by_timestamp_desc (logs db))), db).
Proof. intros Hc. cursor. rewrite Hc. reflexivity. Qed.

(** C4, as the claim states it: [fetch_logs(-1)] returns an empty list.  It
    returns every row. *)
Lemma fetch_logs_negative_limit_returns_rows :
  fst (fetch_logs Completes (-1) db_tx1) = Return (logs db_tx1) /\
  fst (fetch_logs Completes (-1) db_tx1) <> Return [].
Proof. split; [reflexivity | discriminate]. Qed.

(** C4, amended. On a connected store [fetch_logs(0)] returns an empty
    list, whatever the store holds and whether or not the statement fails.
    With a negative limit the call does not raise either, but it returns all
    the rows of [logs], ordered by descending timestamp. *)
Theorem fetch_logs_nonpositive_limit :
  forall (db : DeviceDB),
    conn db = Connected ->
    (forall io, fetch_logs io 0 db = (Return [], db)) /\
    (forall limit, limit < 0 ->
       exists rows,
         fetch_logs Completes limit db = (Return rows, db) /\
         Permutation rows (logs db) /\
         StronglySorted timestamp_desc rows).
Proof.
  intros db Hc. split.
  - intros io. cursor. rewrite Hc. destruct io; reflexivity.
  - intros limit Hl. exists (order_by_timestamp_desc (logs db)).
    rewrite (fetch_logs_completes limit db Hc). unfold sql_limit.
    apply Z.ltb_lt in Hl. rewrite Hl.
    split; [reflexivity|]. split.
    + apply order_by_timestamp_desc_perm.
    + apply order_by_timestamp_desc_sorted.
Qed.

Lemma fetch_logs_nonpositive_limit_witness :
  conn db_three = Connected /\
  fetch_logs (Fails "disk I/O error") 0 db_three = (Return [], db_three) /\
  exists rows,
    fetch_logs Completes (-1) db_three = (Return rows, db_three) /\
    Permutation rows (logs db_three) /\
    StronglySorted timestamp_desc rows.
Proof.
  assert (Hc : conn db_three = Connected) by reflexivity.
  split; [exact Hc|]. split.
  - exact (proj1 (fetch_logs_nonpositive_limit db_three Hc)
             (Fails "disk I/O error")).
  - apply (proj2 (fetch_logs_nonpositive_limit db_three Hc) (-1)). lia.
Defined.

(** C5, as the claim states it: rows of equal timestamp come back by
    descending id.  Two logs with timestamp 5 come back with ids 1, 2. *)
Lemma fetch_logs_ties_not_id_desc :
  exists rows,
    fst (fetch_logs Completes 2 db_ties) = Return rows /\
    map Log.id rows = [1; 2] /\
    map Log.timestamp rows = [5; 5] /\
    ~ StronglySorted timestamp_then_id_desc rows.
Proof.
  eexists. split; [reflexivity|]. split; [reflexivity|].
  split; [reflexivity|].
  intros Hs. inversion Hs as [|? ? _ Hf]; subst.
  inversion Hf as [|? ? Hd _]; subst.
  unfold timestamp_then_id_desc in Hd. simpl in Hd. lia.
Qed.

(** C5, amended. On a connected store holding [n] logs, with a positive
    limit, [fetch_logs] returns [min(limit, n)] rows, so at most [limit]:
    the rows that come first when the stored rows are put in descending
    order of timestamp.  The statement names no second sort key, so nothing
    is promised about rows of equal timestamp.  Logs stored with timestamps
    100, 300, 200 come back as 300, 200, 100. *)
Theorem fetch_logs_timestamp_desc :
  forall (db : DeviceDB) (limit : Z),
    conn db = Connected ->
    0 < limit ->
    (exists rows rest,
       fetch_logs Completes limit db = (Return rows, db) /\
       Z.of_nat (List.length rows) =
       Z.min limit (Z.of_nat (List.length (logs db))) /\
       Z.of_nat (List.length rows) <= limit /\
       StronglySorted timestamp_desc (rows ++ rest) /\
       Permutation (rows ++ rest) (logs db)) /\
    (map Log.timestamp (logs db_three) = [100; 300; 200] /\
     exists rows,
       fst (fetch_logs Completes 3 db_three) = Return rows /\
       map Log.timestamp rows = [300; 200; 100]).
Proof.
  intros db limit Hc Hl. split.
  - exists (firstn (Z.to_nat limit) (order_by_timestamp_desc (logs db))),
           (skipn (Z.to_nat limit) (order_by_timestamp_desc (logs db))).
    rewrite (fetch_logs_completes limit db Hc). unfold sql_limit.
    assert (Hn : (limit <? 0) = false) by (apply Z.ltb_ge; lia).
    rewrite Hn. split; [reflexivity|].
    assert (Hlen : Z.of_nat
                     (List.length
                        (firstn (Z.to_nat limit)
                           (order_by_timestamp_desc (logs db)))) =
                   Z.min limit (Z.of_nat (List.length (logs db)))).
    { rewrite length_firstn.
      rewrite (Permutation_length (order_by_timestamp_desc_perm (logs db))).
      lia. }
    split; [exact Hlen|]. split; [lia|].
    + rewrite firstn_skipn. split.
      * apply order_by_timestamp_desc_sorted.
      * apply order_by_timestamp_desc_perm.
  - split; [reflexivity|]. eexists. split; reflexivity.
Qed.

Lemma fetch_logs_timestamp_desc_witness :
  conn db_ties = Connected /\ 0 < 1 /\
  exists rows rest,
    fetch_logs Completes 1 db_ties = (Return rows, db_ties) /\
    Z.of_nat (List.length rows) =
    Z.min 1 (Z.of_nat (List.length (logs db_ties))) /\
    Z.of_nat (List.length rows) <= 1 /\
    StronglySorted timestamp_desc (rows ++ rest) /\
    Permutation (rows ++ rest) (logs db_ties).
Proof.
  assert (Hc : conn db_ties = Connected) by reflexivity.
  assert (Hl : 0 < 1) by lia.
  split; [exact Hc|]. split; [exact Hl|].
  exact (proj1 (fetch_logs_timestamp_desc db_ties 1 Hc Hl)).
Defined.

(** ** Repeated syncs *)

Lemma sql_insert_or_ignore_log_stores now d s r t h db :
  let db' := sql_insert_or_ignore_log now d s r t h db in
  conn db' = conn db /\ devices db' = devices db /\
  has_txHash h (logs db') = true /\
  (forall h', has_txHash h' (logs db) = true ->
              has_txHash h' (logs db') = true).
Proof.
  unfold sql_insert_or_ignore_log.
  destruct (has_txHash h (logs db)) eqn:Hh; simpl; auto.
  repeat split; auto.
  - rewrite has_txHash_app. simpl. rewrite String.eqb_refl.
    apply orb_true_iff. right. reflexivity.
  - intros h' Hh'. rewrite has_txHash_app, Hh'. reflexivity.
Qed.

(** With no failing statement, the loop of [sync_cache] ends normally and
    every entry's [tx_hash] is stored afterwards. *)
Lemma insert_logs_healthy clock entries :
  forall k db,
    conn db = Connected ->
    exists db',
      insert_logs (healthy clock) k entries db = (Return tt, db') /\
      conn db' = Connected /\ devices db' = devices db /\
      (forall h, has_txHash h (logs db) = true ->
                 has_txHash h (logs db') = true) /\
      (forall e, In e entries -> has_txHash (tx_hash e) (logs db') = true).
Proof.
  induction entries as [|a entries IH]; intros k db Hc.
  - exists db. simpl. repeat split; auto.
  - simpl. rewrite (insert_log_completes db _ _ _ _ _ _ Hc).
    destruct (sql_insert_or_ignore_log_stores (clock k) (device a)
                (int_of_bool (success a)) (reason a) (timestamp a)
                (tx_hash a) db) as (Hc1 & Hd1 & Hin & Hmono).
    set (db1 := sql_insert_or_ignore_log _ _ _ _ _ _ db) in *.
    destruct (IH (S k) db1) as (db' & Hrun & Hc' & Hd' & Hmono' & Hall).
    { rewrite Hc1. exact Hc. }
    exists db'. repeat split; auto.
    + congruence.
    + intros e [<- | He]; auto.
Qed.

(** When every entry's [tx_hash] is stored already, the loop changes no
    row, whatever the statements do. *)
Lemma insert_logs_present env entries :
  forall k db,
    (forall e, In e entries -> has_txHash (tx_hash e) (logs db) = true) ->
    let db' := snd (insert_logs env k entries db) in
    conn db' = conn db /\ devices db' = devices db /\ logs db' = logs db.
Proof.
  induction entries as [|a entries IH]; intros k db Hall; simpl; auto.
  pose proof (insert_log_effect (sqlite3_at env k) (time_at env k) (device a)
                (success a) (reason a) (timestamp a) (tx_hash a) db) as He.
  destruct (insert_log (sqlite3_at env k) (time_at env k) (device a)
              (success a) (reason a) (timestamp a) (tx_hash a) db)
    as [[b | e] db1]; simpl in He; destruct He as (Hc & Hd & Hl).
  - assert (Hl' : logs db1 = logs db).
    { destruct Hl as [Hl | [Hn _]]; auto.
      rewrite (Hall a) in Hn by (left; reflexivity). discriminate. }
    destruct (IH (S k) db1) as (Hc' & Hd' & Hl'').
    { intros e He. rewrite Hl'. apply Hall. right. exact He. }
    simpl in *. repeat split; congruence.
  - simpl. repeat split; auto.
    destruct Hl as [Hl | [Hn _]]; auto.
    rewrite (Hall a) in Hn by (left; reflexivity). discriminate.
Qed.

Lemma get_logs_entries events :
  status_is "success" (get_logs (AllEntries events)) = true /\
  data_logs (get_logs (AllEntries events)) = Return (map log_entry_of events).
Proof. split; reflexivity. Qed.

Lemma sync_cache_entries env events db :
  snd (sync_cache env (AllEntries events) db) =
  snd (insert_logs env 0 (map log_entry_of events) db).
Proof.
  unfold sync_cache.
  destruct (get_logs_entries events) as [-> ->].
  destruct (insert_logs env 0 (map log_entry_of events) db) as [[u | e] db'];
    reflexivity.
Qed.

Lemma get_stats_completes db :
  conn db = Connected ->
  fst (get_stats Completes db) =
  Return (mkStats (Z.of_nat (List.length (devices db)))
                  (Z.of_nat (List.length (logs db)))).
Proof. intros Hc. cursor. rewrite Hc. reflexivity. Qed.

(** C6. On a connected store, let [sync_cache] run once with no failing
    statement, then run again, the ledger returning the same set of events.
    [get_stats] gives the same [total_devices] and [total_logs] after the
    first and after the second run; the second run adds no row. *)
Theorem sync_cache_twice_same_stats :
  forall (clock : nat -> Z) (env2 : Env) (events1 events2 : list EventEntry)
         (db : DeviceDB),
    conn db = Connected ->
    (forall e, In e events1 <-> In e events2) ->
    let db1 := snd (sync_cache (healthy clock) (AllEntries events1) db) in
    let db2 := snd (sync_cache env2 (AllEntries events2) db1) in
    (exists stats,
       fst (get_stats Completes db1) = Return stats /\
       fst (get_stats Completes db2) = Return stats) /\
    logs db2 = logs db1 /\ devices db2 = devices db1.
Proof.
  intros clock env2 events1 events2 db Hc Hsame db1 db2.
  unfold db2, db1. rewrite !sync_cache_entries.
  destruct (insert_logs_healthy clock (map log_entry_of events1) 0%nat db Hc)
    as (d1 & Hrun & Hc1 & _ & _ & Hall).
  rewrite Hrun. simpl.
  destruct (insert_logs_present env2 (map log_entry_of events2) 0%nat d1)
    as (Hc2 & Hd2 & Hl2).
  { intros e He. apply Hall. apply in_map_iff in He.
    destruct He as (ev & <- & Hev). apply in_map. apply Hsame. exact Hev. }
  simpl in *. split; [|split; assumption].
  eexists. split.
  - apply get_stats_completes. exact Hc1.
  - rewrite get_stats_completes by congruence. rewrite Hd2, Hl2. reflexivity.
Qed.

Lemma sync_cache_twice_same_stats_witness :
  let clock := fun _ : nat => 1000 in
  let env2 := mkEnv (fun _ => Fails "database is locked") (fun _ => 2000) in
  let db1 :=
    snd (sync_cache (healthy clock) (AllEntries [event_tx1; event_tx2]) new_db) in
  let db2 :=
    snd (sync_cache env2 (AllEntries [event_tx2; event_tx1; event_tx1]) db1) in
  fst (get_stats Completes db1) = Return (mkStats 0 2) /\
  (exists stats,
     fst (get_stats Completes db1) = Return stats /\
     fst (get_stats Completes db2) = Return stats) /\
  logs db2 = logs db1 /\ devices db2 = devices db1.
Proof.
  intros clock env2 db1 db2. split; [reflexivity|].
  apply (sync_cache_twice_same_stats clock env2 [event_tx1; event_tx2]
           [event_tx2; event_tx1; event_tx1] new_db).
  - reflexivity.
  - intros e. simpl. tauto.
Defined.

(** ** Device upserts *)

Lemma insert_device_completes db now a n r m t :
  conn db = Connected ->
  insert_device Completes now a n r m t db =
  (Return true,
   set_devices db
     (sql_insert_or_replace_device (Device.mk a n r m t now) (devices db))).
Proof. intros Hc. cursor. rewrite Hc. reflexivity. Qed.

Lemma insert_device_effect io now a n r m t db :
  let db' := snd (insert_device io now a n r m t db) in
  conn db' = conn db /\ logs db' = logs db /\
  (devices db' = devices db \/
   devices db' =
   sql_insert_or_replace_device (Device.mk a n r m t now) (devices db)).
Proof.
  cursor. destruct (conn db) eqn:Hc; simpl; auto.
  destruct io; simpl; auto.
Qed.

(** After the statement, the rows stored for the new row's address are the
    new row alone. *)
Lemma sql_insert_or_replace_device_rows r ds :
  filter (fun d => String.eqb (Device.address d) (Device.address r))
    (sql_insert_or_replace_device r ds) = [r].
Proof.
  unfold sql_insert_or_replace_device. rewrite filter_app. simpl.
  rewrite String.eqb_refl.
  replace (filter _ (filter _ ds)) with (@nil Device.row); [reflexivity|].
  induction ds as [|x ds IH]; simpl; [reflexivity|].
  destruct (String.eqb (Device.address x) (Device.address r)) eqn:Hx; simpl.
  - exact IH.
  - rewrite Hx. exact IH.
Qed.

Lemma sql_insert_or_replace_device_unique r ds :
  NoDup (map Device.address ds) ->
  NoDup (map Device.address (sql_insert_or_replace_device r ds)).
Proof.
  unfold sql_insert_or_replace_device. intros Hu.
  rewrite map_app. simpl.
  induction ds as [|x ds IH]; simpl.
  - constructor; [intros [] | constructor].
  - inversion Hu as [|? ? Hx Hds]; subst.
    destruct (String.eqb (Device.address x) (Device.address r)) eqn:Hxr; simpl.
    + apply IH. exact Hds.
    + constructor; [|apply IH; exact Hds].
      rewrite in_app_iff. intros [Hin | [Heq | []]].
      * apply Hx. apply in_map_iff in Hin. destruct Hin as (y & Hy & Hin).
        apply filter_In in Hin. apply in_map_iff. exists y. tauto.
      * rewrite Heq, String.eqb_refl in Hxr. discriminate.
Qed.

Lemma insert_device_calls_invariant calls db :
  address_unique db ->
  conn (insert_device_calls calls db) = conn db /\
  address_unique (insert_device_calls calls db).
Proof.
  revert db. induction calls as [|c calls IH]; intros db Hu; simpl; auto.
  pose proof (insert_device_effect (id_io c) (id_now c) (id_address c)
                (id_name c) (id_role c) (id_metadata c) (id_registered_at c) db)
    as (Hc & _ & Hd).
  fold (insert_device_call db c) in Hc, Hd.
  destruct (IH (insert_device_call db c)) as (Hc' & Hu').
  - unfold address_unique. destruct Hd as [-> | ->]; [exact Hu|].
    apply sql_insert_or_replace_device_unique. exact Hu.
  - split; [congruence | exact Hu'].
Qed.

(** C7. Whatever [insert_device] calls are made on a store whose addresses
    are distinct, they stay distinct: at most one row per address.  On the
    store so reached, caching a device for an address with one name and then
    again with another leaves exactly one row for that address, and the row
    is the second call's: its name, role, metadata and registration time. *)
Theorem insert_device_overwrites :
  forall (calls : list InsertDevice) (db : DeviceDB),
    conn db = Connected ->
    address_unique db ->
    let db' := insert_device_calls calls db in
    address_unique db' /\
    forall now1 now2 a n1 r1 m1 t1 n2 r2 m2 t2,
      let dbX := snd (insert_device Completes now1 a n1 r1 m1 t1 db') in
      let dbY := snd (insert_device Completes now2 a n2 r2 m2 t2 dbX) in
      rows_for a dbY = [Device.mk a n2 r2 m2 t2 now2] /\
      address_unique dbY.
Proof.
  intros calls db Hc Hu db'.
  destruct (insert_device_calls_invariant calls db Hu) as (Hc' & Hu').
  fold db' in Hc', Hu'. rewrite Hc in Hc'.
  split; [exact Hu'|].
  intros now1 now2 a n1 r1 m1 t1 n2 r2 m2 t2 dbX dbY.
  unfold dbY, dbX.
  rewrite (insert_device_completes db' now1 a n1 r1 m1 t1 Hc'). simpl.
  rewrite insert_device_completes by exact Hc'. simpl.
  split.
  - unfold rows_for. simpl.
    apply (sql_insert_or_replace_device_rows (Device.mk a n2 r2 m2 t2 now2)).
  - unfold address_unique. simpl.
    do 2 apply sql_insert_or_replace_device_unique. exact Hu'.
Qed.

Lemma insert_device_overwrites_witness :
  conn new_db = Connected /\ address_unique new_db /\
  rows_for "0xA"
    (snd (insert_device Completes 2000 "0xA" "Y" "actuator" "m" 2
            (snd (insert_device Completes 1000 "0xA" "X" "sensor" "" 1
                    (insert_device_calls [] new_db))))) =
  [Device.mk "0xA" "Y" "actuator" "m" 2 2000].
Proof.
  assert (Hc : conn new_db = Connected) by reflexivity.
  assert (Hu : address_unique new_db) by constructor.
  split; [exact Hc|]. split; [exact Hu|].
  exact (proj1 (proj2 (insert_device_overwrites [] new_db Hc Hu)
                  1000 2000 "0xA"%string "X"%string "sensor"%string
                  ""%string 1 "Y"%string "actuator"%string "m"%string 2)).
Defined.

Lemma find_after_replace r ds :
  find (fun d => String.eqb (Device.address d) (Device.address r))
    (sql_insert_or_replace_device r ds) = Some r.
Proof.
  unfold sql_insert_or_replace_device.
  induction ds as [|x ds IH]; simpl.
  - rewrite String.eqb_refl. reflexivity.
  - destruct (String.eqb (Device.address x) (Device.address r)) eqn:Hx; simpl.
    + exact IH.
    + rewrite Hx. exact IH.
Qed.

(** C8, as the claim states it: a second upsert of an address keeps the
    [registeredAt] of the first.  Device [0xA] is cached with registration
    time 1; caching it again with 2 stores 2. *)
Lemma registeredAt_overwritten_by_upsert :
  exists first second,
    fst (get_device Completes "0xA" db_device_X) = Return (Some first) /\
    fst (get_device Completes "0xA"
           (snd (insert_device Completes 2000 "0xA" "X" "sensor" "" 2
                   db_device_X))) = Return (Some second) /\
    Device.registeredAt first = 1 /\
    Device.registeredAt second = 2 /\
    Device.registeredAt second <> Device.registeredAt first.
Proof.
  do 2 eexists. repeat split; try reflexivity. simpl. discriminate.
Qed.

(** C8, amended. Every upsert writes the whole row: after [insert_device]
    on a connected store whose statements complete, the row read back for
    the address holds the call's [registered_at] as [registeredAt], the
    call's name, role and metadata, and the time of the call as
    [updatedAt], whatever was stored before. *)
Theorem insert_device_sets_registeredAt :
  forall (db : DeviceDB) now a n r m t,
    conn db = Connected ->
    fst (get_device Completes a
           (snd (insert_device Completes now a n r m t db))) =
    Return (Some (Device.mk a n r m t now)).
Proof.
  intros db now a n r m t Hc.
  rewrite (insert_device_completes db now a n r m t Hc). simpl.
  cursor. simpl. rewrite Hc. simpl.
  rewrite (find_after_replace (Device.mk a n r m t now)). reflexivity.
Qed.

Lemma insert_device_sets_registeredAt_witness :
  conn db_device_X = Connected /\
  fst (get_device Completes "0xA"
         (snd (insert_device Completes 2000 "0xA" "X" "sensor" "" 2
                 db_device_X))) =
  Return (Some (Device.mk "0xA" "X" "sensor" "" 2 2000)).
Proof.
  assert (Hc : conn db_device_X = Connected) by reflexivity.
  split; [exact Hc|].
  exact (insert_device_sets_registeredAt db_device_X 2000 "0xA"%string
           "X"%string "sensor"%string ""%string 2 Hc).
Defined.

(** ** The address guard of the facade *)

(** A valid address does reach the ledger: when the contract has
    [registerDevice] and the transaction comes back with a receipt, the
    request is recorded. *)
Lemma register_device_valid_sends to_checksum_address contract_functions
    function_not_found transact address a name role metadata c st h g :
  to_checksum_address address = Some a ->
  hasattr contract_functions "registerDevice" = true ->
  transact (ledger_calls c)
    (Transact "registerDevice" [SStr a; SStr name; SStr role; SStr metadata]) =
  Receipt st h g ->
  ledger_calls
    (snd (register_device to_checksum_address contract_functions
            function_not_found transact address name role metadata c)) =
  ledger_calls c ++
  [Transact "registerDevice" [SStr a; SStr name; SStr role; SStr metadata]].
Proof.
  intros Ha Hf Ht. unfold register_device, guarded_transaction,
    validate_address, format_address, contract_function, _send_transaction.
  rewrite Ha, Hf. cbn [negb]. rewrite Ht. reflexivity.
Qed.

(** C9. When the address is not a valid Ethereum address, each of
    [register_device], [grant_access], [revoke_access], [assign_role],
    [check_access] and [get_device_info] returns the [error] response
    "Invalid Ethereum address" and leaves the client as it was: no request
    is sent to the ledger and the cache is not written. *)
Theorem invalid_address_rejected_before_any_call :
  forall (to_checksum_address : string -> option string)
         (contract_functions : list string)
         (function_not_found : string -> Exn)
         (transact : list LedgerCall -> LedgerCall -> TxOutcome)
         (call_value : list LedgerCall -> LedgerCall -> Py Scalar)
         (call_tuple : list LedgerCall -> LedgerCall -> Py (list Scalar))
         (address : string) (c : IAMClient),
    validate_address to_checksum_address address = false ->
    status_is "error" invalid_address = true /\
    (forall name role metadata,
       register_device to_checksum_address contract_functions
         function_not_found transact address name role metadata c =
       (Return invalid_address, c)) /\
    (forall expiry,
       grant_access to_checksum_address contract_functions function_not_found
         transact address expiry c = (Return invalid_address, c)) /\
    revoke_access to_checksum_address contract_functions function_not_found
      transact address c = (Return invalid_address, c) /\
    (forall role,
       assign_role to_checksum_address contract_functions function_not_found
         transact address role c = (Return invalid_address, c)) /\
    check_access to_checksum_address contract_functions call_value address c =
    (Return invalid_address, c) /\
    get_device_info to_checksum_address contract_functions call_tuple address
      c = (Return invalid_address, c).
Proof.
  intros to_checksum_address contract_functions function_not_found transact
    call_value call_tuple address c Hv.
  unfold register_device, grant_access, revoke_access, assign_role,
    guarded_transaction, check_access, get_device_info.
  rewrite Hv. simpl. repeat split; reflexivity.
Qed.

Lemma invalid_address_rejected_before_any_call_witness :
  let c := mkClient db_tx1 [] in
  let transact := fun (_ : list LedgerCall) (_ : LedgerCall) =>
                    Receipt 1 "0xabc" 21000 in
  validate_address length_42 "0x123" = false /\
  register_device length_42 ["checkAccess"%string]
    (fun _ => OtherError "function not found") transact "0x123" "Device1"
    "sensor" "" c = (Return invalid_address, c) /\
  check_access length_42 ["checkAccess"%string]
    (fun _ _ => Return (SBool true)) "0x123" c = (Return invalid_address, c).
Proof.
  intros c transact.
  assert (Hv : validate_address length_42 "0x123" = false) by reflexivity.
  pose proof (invalid_address_rejected_before_any_call length_42
                ["checkAccess"%string]
                (fun _ => OtherError "function not found") transact
                (fun _ _ => Return (SBool true)) (fun _ _ => Return [])
                "0x123"%string c Hv) as (_ & Hreg & _ & _ & _ & Hchk & _).
  split; [exact Hv|]. split; [apply Hreg | exact Hchk].
Defined.

(** ** Reads under a storage failure *)

Lemma sql_limit_nil {A : Type} (limit : Z) : sql_limit limit (@nil A) = [].
Proof.
  unfold sql_limit. destruct (limit <? 0); [reflexivity | apply firstn_nil].
Qed.

(** [storage_failure] is the case in which [_get_cursor] raises
    [CacheError]. *)
Lemma storage_failure_CacheError {A : Type} io db
    (body : DeviceDB -> A * DeviceDB) :
  storage_failure io db <->
  exists msg, fst (_get_cursor io db body) = Raise (CacheError msg).
Proof.
  unfold storage_failure, _get_cursor. split.
  - intros [-> | [-> [msg ->]]]; eexists; reflexivity.
  - intros [msg H]. destruct (conn db); [left; reflexivity | | discriminate].
    right. split; [reflexivity|]. destruct io as [|m].
    + destruct (body db). discriminate.
    + exists m. reflexivity.
Qed.

(** A store used after [close()] is another matter: [cursor()] raises
    [sqlite3.ProgrammingError] before the [try] of [_get_cursor], no method
    catches it, and [get_cached_logs] turns it into an [error] response. *)
Lemma read_after_close_raises io limit db :
  conn db <> NoConnection ->
  fst (fetch_logs io limit (close db)) =
  Raise (ProgrammingError "Cannot operate on a closed database.") /\
  status_is "error" (fst (get_cached_logs io limit (close db))) = true.
Proof.
  intros Hc. unfold get_cached_logs. cursor. unfold close.
  destruct (conn db); [congruence | |]; split; reflexivity.
Qed.

(** C10. When the cursor block of a read fails (no connection, or a
    statement fails), the read does not raise: [fetch_logs] and
    [get_device_logs] return an empty list, [get_device] returns [None] and
    [get_stats] returns zero counts.  These are the values the same reads
    return on an empty store, and the store is left as it was. *)
Theorem reads_on_storage_failure :
  forall (io : Sqlite3) (db : DeviceDB) (address : string) (limit : Z),
    storage_failure io db ->
    (fetch_logs io limit db = (Return [], db) /\
     get_device_logs io address limit db = (Return [], db) /\
     get_device io address db = (Return None, db) /\
     get_stats io db = (Return (mkStats 0 0), db)) /\
    (fst (fetch_logs Completes limit new_db) = Return [] /\
     fst (get_device_logs Completes address limit new_db) = Return [] /\
     fst (get_device Completes address new_db) = Return None /\
     fst (get_stats Completes new_db) = Return (mkStats 0 0)).
Proof.
  intros io db address limit Hf. split.
  - cursor. destruct Hf as [-> | [-> [msg ->]]]; repeat split; reflexivity.
  - cursor. simpl. rewrite !sql_limit_nil. repeat split; reflexivity.
Qed.

Lemma reads_on_storage_failure_witness :
  storage_failure (Fails "disk I/O error") db_three /\
  fetch_logs (Fails "disk I/O error") 10 db_three = (Return [], db_three) /\
  get_stats (Fails "disk I/O error") db_three =
  (Return (mkStats 0 0), db_three).
Proof.
  assert (Hf : storage_failure (Fails "disk I/O error") db_three).
  { right. split; [reflexivity|]. eexists. reflexivity. }
  destruct (reads_on_storage_failure (Fails "disk I/O error") db_three
              "0xA"%string 10 Hf) as ((Hlogs & _ & _ & Hstats) & _).
  split; [exact Hf|]. split; [exact Hlogs | exact Hstats].
Defined.

(** * Further properties of the store *)

Ltac cursor_all :=
  unfold sync_device, sync_log, fetch_all_devices, clear_logs, clear_devices;
  cursor.

Lemma sql_limit_split {A : Type} (limit : Z) (l : list A) :
  exists rest,
    sql_limit limit l ++ rest = l /\
    (0 <= limit ->
     Z.of_nat (List.length (sql_limit limit l)) =
     Z.min limit (Z.of_nat (List.length l))) /\
    (limit < 0 -> rest = []).
Proof.
  unfold sql_limit. destruct (limit <? 0) eqn:Hl.
  - apply Z.ltb_lt in Hl. exists []. rewrite app_nil_r.
    repeat split; auto. lia.
  - apply Z.ltb_ge in Hl. exists (skipn (Z.to_nat limit) l).
    rewrite firstn_skipn. repeat split; [|lia].
    intros _. rewrite length_firstn. lia.
Qed.

(** X1. [get_device_logs] on a connected store returns rows of the asked
    device only, each stored row of that device at most once, in descending
    order of timestamp; with a limit of zero or more it returns
    [min(limit, n)] of the device's [n] rows, the most recent ones, and with
    a negative limit all of them. *)
Theorem get_device_logs_of_device :
  forall (db : DeviceDB) (address : string) (limit : Z),
    conn db = Connected ->
    exists rows rest,
      get_device_logs Completes address limit db = (Return rows, db) /\
      Forall (fun r => Log.device r = address) rows /\
      StronglySorted timestamp_desc (rows ++ rest) /\
      Permutation (rows ++ rest)
        (filter (fun l => String.eqb (Log.device l) address) (logs db)) /\
      (0 <= limit ->
       Z.of_nat (List.length rows) =
       Z.min limit
         (Z.of_nat (List.length
            (filter (fun l => String.eqb (Log.device l) address) (logs db))))) /\
      (limit < 0 -> rest = []).
Proof.
  intros db address limit Hc.
  set (mine := filter (fun l => String.eqb (Log.device l) address) (logs db)).
  destruct (sql_limit_split limit (order_by_timestamp_desc mine))
    as (rest & Hsplit & Hlen & Hneg).
  exists (sql_limit limit (order_by_timestamp_desc mine)), rest.
  split; [cursor; rewrite Hc; reflexivity|].
  assert (Hperm : Permutation
                    (sql_limit limit (order_by_timestamp_desc mine) ++ rest)
                    mine).
  { rewrite Hsplit. apply order_by_timestamp_desc_perm. }
  split.
  - apply Forall_forall. intros r Hr.
    assert (Hin : In r mine).
    { eapply Permutation_in; [exact Hperm|]. apply in_or_app. left. exact Hr. }
    apply filter_In in Hin. apply String.eqb_eq. tauto.
  - split; [rewrite Hsplit; apply order_by_timestamp_desc_sorted|].
    split; [exact Hperm|]. split; [|exact Hneg].
    intros Hl. rewrite (Hlen Hl).
    rewrite (Permutation_length (order_by_timestamp_desc_perm mine)).
    reflexivity.
Qed.

Lemma get_device_logs_of_device_witness :
  conn db_three = Connected /\
  fst (get_device_logs Completes "0xA" 10 db_three) =
  Return [Log.mk 3 "0xA" 1 "c" 200 "tx3" 1002;
          Log.mk 1 "0xA" 1 "a" 100 "tx1" 1000] /\
  exists rows rest,
    get_device_logs Completes "0xA" 1 db_three = (Return rows, db_three) /\
    Forall (fun r => Log.device r = "0xA"%string) rows /\
    StronglySorted timestamp_desc (rows ++ rest) /\
    Permutation (rows ++ rest)
      (filter (fun l => String.eqb (Log.device l) "0xA") (logs db_three)) /\
    (0 <= 1 ->
     Z.of_nat (List.length rows) =
     Z.min 1
       (Z.of_nat (List.length
          (filter (fun l => String.eqb (Log.device l) "0xA")
             (logs db_three))))) /\
    (1 < 0 -> rest = []).
Proof.
  assert (Hc : conn db_three = Connected) by reflexivity.
  split; [exact Hc|]. split; [reflexivity|].
  exact (get_device_logs_of_device db_three "0xA"%string 1 Hc).
Defined.

Lemma find_address_In address (ds : list Device.row) r :
  find (fun d => String.eqb (Device.address d) address) ds = Some r ->
  In r ds /\ Device.address r = address.
Proof.
  intros H. apply find_some in H. rewrite String.eqb_eq in H. exact H.
Qed.

Lemma find_address_unique address (ds : list Device.row) r :
  NoDup (map Device.address ds) ->
  In r ds -> Device.address r = address ->
  find (fun d => String.eqb (Device.address d) address) ds = Some r.
Proof.
  intros Hu Hin Ha. induction ds as [|x ds IH]; [destruct Hin|].
  simpl in *. inversion Hu as [|? ? Hx Hds]; subst.
  destruct Hin as [-> | Hin].
  - rewrite String.eqb_refl. reflexivity.
  - destruct (String.eqb (Device.address x) (Device.address r)) eqn:Hxr.
    + apply String.eqb_eq in Hxr. exfalso. apply Hx. rewrite Hxr.
      apply in_map. exact Hin.
    + apply IH; auto.
Qed.

Lemma find_address_none address (ds : list Device.row) :
  find (fun d => String.eqb (Device.address d) address) ds = None <->
  ~ In address (map Device.address ds).
Proof.
  split.
  - intros H Hin. apply in_map_iff in Hin. destruct Hin as (r & Hr & Hin).
    apply (find_none _ _ H) in Hin. rewrite Hr, String.eqb_refl in Hin.
    discriminate.
  - intros H. destruct (find _ ds) as [r|] eqn:Hf; [|reflexivity].
    apply find_address_In in Hf. exfalso. apply H.
    destruct Hf as [Hin <-]. apply in_map. exact Hin.
Qed.

Lemma get_device_completes address db :
  conn db = Connected ->
  get_device Completes address db =
  (Return (find (fun r => String.eqb (Device.address r) address) (devices db)),
   db).
Proof. intros Hc. cursor. rewrite Hc. reflexivity. Qed.

(** X2. On a connected store with distinct addresses, [get_device] returns
    a row exactly when that row is stored under the asked address, and
    returns [None] exactly when no row has the address. *)
Theorem get_device_found_iff_stored :
  forall (db : DeviceDB) (address : string),
    conn db = Connected ->
    address_unique db ->
    (forall r,
       fst (get_device Completes address db) = Return (Some r) <->
       In r (devices db) /\ Device.address r = address) /\
    (fst (get_device Completes address db) = Return None <->
     ~ In address (map Device.address (devices db))).
Proof.
  intros db address Hc Hu. rewrite (get_device_completes address db Hc). simpl.
  split.
  - intros r. split.
    + intros H. injection H as H. apply find_address_In. exact H.
    + intros [Hin Ha]. f_equal. apply find_address_unique; assumption.
  - split.
    + intros H. injection H as H. apply find_address_none. exact H.
    + intros H. f_equal. apply find_address_none. exact H.
Qed.

Lemma get_device_found_iff_stored_witness :
  conn db_device_X = Connected /\ address_unique db_device_X /\
  fst (get_device Completes "0xA" db_device_X) =
  Return (Some (Device.mk "0xA" "X" "sensor" "" 1 1000)) /\
  fst (get_device Completes "0xB" db_device_X) = Return None.
Proof.
  assert (Hc : conn db_device_X = Connected) by reflexivity.
  assert (Hu : address_unique db_device_X).
  { repeat constructor. intros []. }
  split; [exact Hc|]. split; [exact Hu|]. split.
  - apply (proj1 (get_device_found_iff_stored db_device_X "0xA"%string Hc Hu)).
    split; [left; reflexivity | reflexivity].
  - apply (proj2 (get_device_found_iff_stored db_device_X "0xB"%string Hc Hu)).
    simpl. intros [H | []]. discriminate.
Defined.

Lemma find_other_after_replace r ds b :
  Device.address r <> b ->
  find (fun d => String.eqb (Device.address d) b)
    (sql_insert_or_replace_device r ds) =
  find (fun d => String.eqb (Device.address d) b) ds.
Proof.
  intros Hne. unfold sql_insert_or_replace_device.
  assert (Hr : String.eqb (Device.address r) b = false)
    by (apply String.eqb_neq; exact Hne).
  induction ds as [|x ds IH]; simpl.
  - rewrite Hr. reflexivity.
  - destruct (String.eqb (Device.address x) (Device.address r)) eqn:Hx; simpl.
    + apply String.eqb_eq in Hx.
      assert (Hxb : String.eqb (Device.address x) b = false)
        by (rewrite Hx; exact Hr).
      rewrite Hxb. exact IH.
    + destruct (String.eqb (Device.address x) b); [reflexivity | exact IH].
Qed.

(** X3. Caching a device under one address changes nothing for another:
    whatever the outcome of [insert_device] for address [a], [get_device]
    answers as before for every address [b] other than [a], and the logs
    and their sequence are untouched. *)
Theorem insert_device_leaves_other_addresses :
  forall (db : DeviceDB) io io' now a n r m t b,
    a <> b ->
    let db' := snd (insert_device io now a n r m t db) in
    fst (get_device io' b db') = fst (get_device io' b db) /\
    logs db' = logs db /\ logs_seq db' = logs_seq db.
Proof.
  intros db io io' now a n r m t b Hne. cursor.
  destruct (conn db) eqn:Hc; simpl; rewrite ?Hc; auto.
  destruct io; simpl; rewrite ?Hc; auto.
  destruct io'; simpl; auto.
  rewrite (find_other_after_replace (Device.mk a n r m t now)); auto.
Qed.

Lemma insert_device_leaves_other_addresses_witness :
  fst (get_device Completes "0xA"
         (snd (insert_device Completes 2000 "0xB" "Y" "actuator" "" 2
                 db_device_X))) =
  fst (get_device Completes "0xA" db_device_X).
Proof.
  apply (insert_device_leaves_other_addresses db_device_X Completes Completes
           2000 "0xB"%string "Y"%string "actuator"%string ""%string 2
           "0xA"%string).
  discriminate.
Defined.

(** X4. A log inserted under a new [txHash] can be read back: after the
    insert on a connected store, [fetch_logs] with a limit above the number
    of rows stored before returns the rows stored before together with the
    new row, which carries the call's values, [int(success)] and the next
    id; [get_device_logs] for the new row's device returns it as well. *)
Theorem insert_log_then_fetch :
  forall (db : DeviceDB) now d s r t h limit,
    conn db = Connected ->
    has_txHash h (logs db) = false ->
    Z.of_nat (List.length (logs db)) < limit ->
    let db' := snd (insert_log Completes now d s r t h db) in
    let row := Log.mk (logs_seq db + 1) d (int_of_bool s) r t h now in
    exists rows mine,
      fetch_logs Completes limit db' = (Return rows, db') /\
      Permutation rows (logs db ++ [row]) /\
      get_device_logs Completes d limit db' = (Return mine, db') /\
      In row mine.
Proof.
  intros db now d s r t h limit Hc Hh Hl db' row.
  assert (Hdb : db' = set_logs db (logs db ++ [row]) (logs_seq db + 1)).
  { unfold db'. rewrite (insert_log_completes db now d s r t h Hc). simpl.
    unfold sql_insert_or_ignore_log. rewrite Hh. reflexivity. }
  assert (Hc' : conn db' = Connected) by (rewrite Hdb; exact Hc).
  assert (Hlogs : logs db' = logs db ++ [row]) by (rewrite Hdb; reflexivity).
  assert (Hall : forall l : list Log.row,
             Z.of_nat (List.length l) <= limit -> sql_limit limit l = l).
  { intros l Hlen. unfold sql_limit. destruct (limit <? 0); [reflexivity|].
    apply firstn_all2. lia. }
  exists (order_by_timestamp_desc (logs db')),
         (order_by_timestamp_desc
            (filter (fun l => String.eqb (Log.device l) d) (logs db'))).
  split.
  - rewrite (fetch_logs_completes limit db' Hc'). rewrite Hall; [reflexivity|].
    rewrite (Permutation_length (order_by_timestamp_desc_perm _)), Hlogs.
    rewrite length_app. change (List.length [row]) with 1%nat. lia.
  - split; [rewrite <- Hlogs; apply order_by_timestamp_desc_perm|].
    split.
    + cursor. rewrite Hc'. simpl. rewrite Hall; [reflexivity|].
      rewrite (Permutation_length (order_by_timestamp_desc_perm _)).
      pose proof (filter_length_le
                    (fun l => String.eqb (Log.device l) d) (logs db')) as Hle.
      rewrite Hlogs in Hle. rewrite length_app in Hle.
      change (List.length [row]) with 1%nat in Hle. rewrite Hlogs. lia.
    + eapply Permutation_in;
        [symmetry; apply order_by_timestamp_desc_perm|].
      apply filter_In. split.
      * rewrite Hlogs. apply in_or_app. right. left. reflexivity.
      * simpl. apply String.eqb_refl.
Qed.

Lemma insert_log_then_fetch_witness :
  conn db_tx1 = Connected /\ has_txHash "tx2" (logs db_tx1) = false /\
  exists rows mine,
    fetch_logs Completes 2
      (snd (insert_log Completes 2000 "0xB" false "gate" 20 "tx2" db_tx1)) =
    (Return rows,
     snd (insert_log Completes 2000 "0xB" false "gate" 20 "tx2" db_tx1)) /\
    Permutation rows
      (logs db_tx1 ++ [Log.mk (logs_seq db_tx1 + 1) "0xB" (int_of_bool false)
                         "gate" 20 "tx2" 2000]) /\
    get_device_logs Completes "0xB" 2
      (snd (insert_log Completes 2000 "0xB" false "gate" 20 "tx2" db_tx1)) =
    (Return mine,
     snd (insert_log Completes 2000 "0xB" false "gate" 20 "tx2" db_tx1)) /\
    In (Log.mk (logs_seq db_tx1 + 1) "0xB" (int_of_bool false) "gate" 20
          "tx2" 2000) mine.
Proof.
  assert (Hc : conn db_tx1 = Connected) by reflexivity.
  assert (Hh : has_txHash "tx2" (logs db_tx1) = false) by reflexivity.
  split; [exact Hc|]. split; [exact Hh|].
  apply (insert_log_then_fetch db_tx1 2000 "0xB"%string false "gate"%string
           20 "tx2"%string 2 Hc Hh).
  simpl. lia.
Defined.

(** ** The schema's constraints under every operation *)

Lemma insert_log_cases io now d s r t h db :
  let db' := snd (insert_log io now d s r t h db) in
  db' = db \/
  db' = set_logs db (logs db) (logs_seq db + 1) \/
  (has_txHash h (logs db) = false /\
   db' = set_logs db
           (logs db ++ [Log.mk (logs_seq db + 1) d (int_of_bool s) r t h now])
           (logs_seq db + 1)).
Proof.
  cursor. destruct (conn db) eqn:Hc; simpl; auto.
  destruct io; simpl; auto.
  unfold sql_insert_or_ignore_log.
  destruct (has_txHash h (logs db)); auto.
Qed.

Lemma ids_snoc (ids : list Z) (seq : Z) :
  StronglySorted Z.lt ids -> Forall (fun i => i <= seq) ids ->
  StronglySorted Z.lt (ids ++ [seq + 1]) /\
  Forall (fun i => i <= seq + 1) (ids ++ [seq + 1]).
Proof.
  intros Hs Hb. split.
  - induction Hs as [|x l Hl IH Hx]; simpl.
    + constructor; constructor.
    + inversion Hb; subst. constructor; [apply IH; assumption|].
      apply Forall_app. split; [exact Hx|]. constructor; [lia | constructor].
  - apply Forall_app. split.
    + eapply Forall_impl; [|exact Hb]. intros a Ha. simpl in Ha. lia.
    + constructor; [lia | constructor].
Qed.

Lemma extends_refl db : extends db db.
Proof. split; [lia | auto]. Qed.

Lemma extends_trans db1 db2 db3 :
  extends db1 db2 -> extends db2 db3 -> extends db1 db3.
Proof.
  intros [Hs1 Hr1] [Hs2 Hr2]. split; [lia|].
  intros r Hr. destruct (Hr2 r Hr) as [Hin | Hlt]; [auto | right; lia].
Qed.

Lemma insert_log_step_ok io now d s r t h db :
  store_ok db ->
  store_ok (snd (insert_log io now d s r t h db)) /\
  extends db (snd (insert_log io now d s r t h db)).
Proof.
  intros (Ht & Ha & Hs & Hb).
  pose proof (insert_log_unique io now d s r t h db Ht) as Ht'.
  destruct (insert_log_effect io now d s r t h db) as (_ & Hd & _).
  destruct (insert_log_cases io now d s r t h db) as [E | [E | [Hh E]]];
    rewrite E in *; clear E.
  - split; [repeat split; assumption | apply extends_refl].
  - split.
    + repeat split; auto. simpl.
      eapply Forall_impl; [|exact Hb]. intros a Hle. simpl in Hle. lia.
    + split; simpl; [lia | auto].
  - split.
    + split; [exact Ht'|]. split; [exact Ha|].
      unfold ids_ascending. simpl. rewrite map_app. simpl.
      apply ids_snoc; assumption.
    + split; simpl; [lia|]. intros x Hx. apply in_app_or in Hx.
      destruct Hx as [Hx | [<- | []]]; [auto | right; simpl; lia].
Qed.

Lemma insert_logs_ok env entries :
  forall k db,
    store_ok db ->
    store_ok (snd (insert_logs env k entries db)) /\
    extends db (snd (insert_logs env k entries db)).
Proof.
  induction entries as [|a entries IH]; intros k db Hok; simpl.
  - split; [exact Hok | apply extends_refl].
  - pose proof (insert_log_step_ok (sqlite3_at env k) (time_at env k)
                  (device a) (success a) (reason a) (timestamp a) (tx_hash a)
                  db Hok) as [Hok1 Hex1].
    destruct (insert_log (sqlite3_at env k) (time_at env k) (device a)
                (success a) (reason a) (timestamp a) (tx_hash a) db)
      as [[b | e] db1]; simpl in *.
    + destruct (IH (S k) db1 Hok1) as [Hok2 Hex2].
      split; [exact Hok2 | eapply extends_trans; eassumption].
    + split; assumption.
Qed.

Lemma sync_cache_snd env chain db :
  snd (sync_cache env chain db) = snd (insert_logs env 0 (entries_of chain) db).
Proof.
  destruct chain as [|e|events].
  - reflexivity.
  - unfold sync_cache.
    assert (Hs : status_is "success" (get_logs (FilterRaises e)) = false).
    { unfold get_logs, build_response.
      destruct (truthy (Some (str_exn e))); reflexivity. }
    rewrite Hs. reflexivity.
  - apply sync_cache_entries.
Qed.

Lemma db_step_ok op db :
  store_ok db -> store_ok (db_step db op) /\ extends db (db_step db op).
Proof.
  intros Hok. destruct op as [a | a | env chain | io | io |]; simpl.
  - destruct Hok as (Ht & Ha & Hi).
    pose proof (insert_device_effect (id_io a) (id_now a) (id_address a)
                  (id_name a) (id_role a) (id_metadata a)
                  (id_registered_at a) db) as (_ & Hl & Hd).
    fold (insert_device_call db a) in Hl, Hd.
    assert (Hseq : logs_seq (insert_device_call db a) = logs_seq db).
    { unfold insert_device_call. cursor.
      destruct (conn db); simpl; auto. destruct (id_io a); reflexivity. }
    split.
    + split; [unfold txHash_unique; rewrite Hl; exact Ht|]. split.
      * unfold address_unique. destruct Hd as [-> | ->]; [exact Ha|].
        apply sql_insert_or_replace_device_unique. exact Ha.
      * unfold ids_ascending. rewrite Hl, Hseq. exact Hi.
    + split; [lia|]. rewrite Hl. auto.
  - apply insert_log_step_ok. exact Hok.
  - rewrite sync_cache_snd. apply insert_logs_ok. exact Hok.
  - destruct Hok as (Ht & Ha & Hs & Hb). cursor_all.
    destruct (conn db); simpl;
      try (split; [repeat split; assumption | apply extends_refl]).
    destruct io; simpl;
      try (split; [repeat split; assumption | apply extends_refl]).
    split.
    + repeat split; auto; constructor.
    + split; simpl; [lia | intros x []].
  - destruct Hok as (Ht & Ha & Hs & Hb). cursor_all.
    destruct (conn db); simpl;
      try (split; [repeat split; assumption | apply extends_refl]).
    destruct io; simpl;
      try (split; [repeat split; assumption | apply extends_refl]).
    split; [|split; simpl; [lia | auto]].
    repeat split; auto. constructor.
  - unfold close. destruct (conn db);
      (split; [exact Hok | split; simpl; [lia | auto]]).
Qed.

(** X5. Whatever operations run on the store ([insert_device],
    [insert_log], [sync_cache], [clear_logs], [clear_devices], [close]),
    with whatever failures, the constraints of the schema are kept: one row
    per address, one row per [txHash], ids ascending in insertion order.
    Ids are never reused, also after [clear_logs]: a row the store did not
    hold before has an id above every id handed out before. *)
Theorem store_constraints_kept :
  forall (ops : list DbOp) (db : DeviceDB),
    store_ok db ->
    store_ok (db_steps ops db) /\ extends db (db_steps ops db).
Proof.
  induction ops as [|op ops IH]; intros db Hok; simpl.
  - split; [exact Hok | apply extends_refl].
  - destruct (db_step_ok op db Hok) as [Hok1 Hex1].
    destruct (IH (db_step db op) Hok1) as [Hok2 Hex2].
    split; [exact Hok2 | eapply extends_trans; eassumption].
Qed.

Lemma new_db_ok : store_ok new_db.
Proof. repeat split; constructor. Qed.

Lemma store_constraints_kept_witness :
  let ops :=
    [OpInsertLog (mkInsertLog Completes 1000 "0xA" true "a" 100 "tx1");
     OpInsertLog (mkInsertLog Completes 1001 "0xA" true "b" 101 "tx1");
     OpClearLogs Completes;
     OpSyncCache (healthy (fun _ => 1002)) (AllEntries [event_tx1; event_tx2])]
      %string in
  map Log.id (logs (db_steps ops new_db)) = [3; 4] /\
  store_ok (db_steps ops new_db) /\ extends new_db (db_steps ops new_db).
Proof.
  intros ops. split; [reflexivity|].
  exact (store_constraints_kept ops new_db new_db_ok).
Defined.

(** ** Writes under a storage failure, and the bulk deletes *)

(** X6. When the cursor block of a write fails (no connection, or a
    statement fails and is rolled back), the write returns [False], does not
    raise, and leaves the store exactly as it was: [insert_device],
    [insert_log], [sync_device], [sync_log], [clear_logs] and
    [clear_devices]. *)
Theorem writes_on_storage_failure :
  forall (io : Sqlite3) (db : DeviceDB),
    storage_failure io db ->
    (forall now a n r m t,
       insert_device io now a n r m t db = (Return false, db)) /\
    (forall now d s r t h,
       insert_log io now d s r t h db = (Return false, db)) /\
    (forall now info, sync_device io now info db = (Return false, db)) /\
    (forall now entry, sync_log io now entry db = (Return false, db)) /\
    clear_logs io db = (Return false, db) /\
    clear_devices io db = (Return false, db).
Proof.
  intros io db Hf. cursor_all.
  destruct Hf as [-> | [-> [msg ->]]]; repeat split; reflexivity.
Qed.

Lemma writes_on_storage_failure_witness :
  storage_failure (Fails "database is locked") db_three /\
  insert_log (Fails "database is locked") 2000 "0xC" true "x" 1 "tx9"
    db_three = (Return false, db_three) /\
  clear_logs (Fails "database is locked") db_three = (Return false, db_three).
Proof.
  assert (Hf : storage_failure (Fails "database is locked") db_three).
  { right. split; [reflexivity|]. eexists. reflexivity. }
  destruct (writes_on_storage_failure (Fails "database is locked") db_three Hf)
    as (_ & Hlog & _ & _ & Hclear & _).
  split; [exact Hf|]. split; [apply Hlog | exact Hclear].
Defined.

(** X7. [clear_logs] on a connected store removes every log and nothing
    else: afterwards [fetch_logs] and [get_device_logs] return nothing for
    any limit, [get_stats] counts zero logs and as many devices as before,
    and [get_device] answers as before.  [clear_devices] is the mirror
    image: no device is found, the device count is zero, and the logs read
    back as before. *)
Theorem clear_removes_one_table :
  forall (db : DeviceDB) (address : string) (limit : Z),
    conn db = Connected ->
    (let db' := snd (clear_logs Completes db) in
     fst (clear_logs Completes db) = Return true /\
     fst (fetch_logs Completes limit db') = Return [] /\
     fst (get_device_logs Completes address limit db') = Return [] /\
     fst (get_stats Completes db') =
     Return (mkStats (Z.of_nat (List.length (devices db))) 0) /\
     fst (get_device Completes address db') =
     fst (get_device Completes address db)) /\
    (let db' := snd (clear_devices Completes db) in
     fst (clear_devices Completes db) = Return true /\
     fst (get_device Completes address db') = Return None /\
     fst (fetch_all_devices Completes db') = Return [] /\
     fst (get_stats Completes db') =
     Return (mkStats 0 (Z.of_nat (List.length (logs db)))) /\
     fst (fetch_logs Completes limit db') =
     fst (fetch_logs Completes limit db)).
Proof.
  intros db address limit Hc. cursor_all. rewrite Hc. simpl. rewrite Hc. simpl.
  rewrite !sql_limit_nil. repeat split; reflexivity.
Qed.

Lemma clear_removes_one_table_witness :
  conn db_three = Connected /\
  fst (fetch_logs Completes (-1) (snd (clear_logs Completes db_three))) =
  Return [].
Proof.
  assert (Hc : conn db_three = Connected) by reflexivity.
  split; [exact Hc|].
  exact (proj1 (proj2 (proj1 (clear_removes_one_table db_three "0xA"%string
                                (-1) Hc)))).
Defined.

(** ** [fetch_all_devices] *)

Lemma string_leb_trans (a b c : string) :
  String.leb a b = true -> String.leb b c = true -> String.leb a c = true.
Proof.
  unfold String.leb. revert b c.
  induction a as [|x a IH]; intros [|y b] [|z c]; simpl; auto;
    try discriminate.
  pose proof (Ascii.compare_antisym x y) as Hxy.
  destruct (Ascii.compare x y) eqn:Exy; try discriminate.
  - apply Ascii.compare_eq_iff in Exy. subst y.
    destruct (Ascii.compare x z); auto. apply IH.
  - intros _. destruct (Ascii.compare y z) eqn:Eyz; try discriminate.
    + apply Ascii.compare_eq_iff in Eyz. subst z. rewrite Exy. auto.
    + intros _. unfold Ascii.compare in *.
      rewrite N.compare_lt_iff in Exy, Eyz.
      assert (H : (Ascii.N_of_ascii x ?= Ascii.N_of_ascii z)%N = Lt)
        by (apply N.compare_lt_iff; lia).
      rewrite H. reflexivity.
Qed.

Lemma insert_by_name_perm r l : Permutation (insert_by_name r l) (r :: l).
Proof.
  induction l as [|x l IH]; simpl; [reflexivity|].
  destruct (String.leb (Device.name r) (Device.name x)); [reflexivity|].
  rewrite IH. apply perm_swap.
Qed.

Lemma order_by_name_perm l : Permutation (order_by_name l) l.
Proof.
  induction l as [|r l IH]; simpl; [reflexivity|].
  rewrite insert_by_name_perm. constructor. exact IH.
Qed.

Lemma order_by_name_sorted l :
  StronglySorted
    (fun a b => String.leb (Device.name a) (Device.name b) = true)
    (order_by_name l).
Proof.
  induction l as [|r l IH]; simpl; [constructor|].
  induction IH as [|x s Hs IHs Hx]; simpl.
  - constructor; constructor.
  - destruct (String.leb (Device.name r) (Device.name x)) eqn:Hle.
    + constructor; [constructor; assumption|].
      constructor; [exact Hle|].
      eapply Forall_impl; [|exact Hx]. intros a Ha. simpl in Ha.
      eapply string_leb_trans; eassumption.
    + constructor; [exact IHs|].
      eapply Permutation_Forall; [symmetry; apply insert_by_name_perm|].
      constructor; [|exact Hx].
      destruct (String.leb_total (Device.name x) (Device.name r)) as [H | H];
        [exact H | congruence].
Qed.

(** X8. [fetch_all_devices] on a connected store returns every cached
    device exactly once, in ascending order of name (byte order, so capital
    letters come first); under a storage failure it returns an empty
    list. *)
Theorem fetch_all_devices_sorted_by_name :
  forall (db : DeviceDB),
    conn db = Connected ->
    (exists rows,
       fetch_all_devices Completes db = (Return rows, db) /\
       Permutation rows (devices db) /\
       StronglySorted
         (fun a b => String.leb (Device.name a) (Device.name b) = true) rows) /\
    (forall msg, fetch_all_devices (Fails msg) db = (Return [], db)).
Proof.
  intros db Hc. split.
  - exists (order_by_name (devices db)). split.
    + cursor_all. rewrite Hc. reflexivity.
    + split; [apply order_by_name_perm | apply order_by_name_sorted].
  - intros msg. cursor_all. rewrite Hc. reflexivity.
Qed.

Lemma fetch_all_devices_sorted_by_name_witness :
  let db :=
    insert_device_calls
      [mkInsertDevice Completes 1000 "0x3" "bob" "sensor" "" 1;
       mkInsertDevice Completes 1001 "0x1" "alice" "sensor" "" 1;
       mkInsertDevice Completes 1002 "0x4" "Zed" "sensor" "" 1]%string new_db in
  conn db = Connected /\
  map Device.name (match fst (fetch_all_devices Completes db) with
                   | Return rows => rows
                   | Raise _ => []
                   end) = ["Zed"; "alice"; "bob"]%string /\
  exists rows,
    fetch_all_devices Completes db = (Return rows, db) /\
    Permutation rows (devices db) /\
    StronglySorted
      (fun a b => String.leb (Device.name a) (Device.name b) = true) rows.
Proof.
  intros db.
  assert (Hc : conn db = Connected) by reflexivity.
  split; [exact Hc|]. split; [reflexivity|].
  exact (proj1 (fetch_all_devices_sorted_by_name db Hc)).
Defined.

(** ** After [close] *)

(** X9. [close] keeps the tables and is idempotent, but a store that had a
    connection is unusable afterwards: every method raises
    [sqlite3.ProgrammingError] (it is not turned into the method's fallback
    value) and changes nothing. *)
Theorem methods_raise_after_close :
  forall (db : DeviceDB) (io : Sqlite3),
    conn db <> NoConnection ->
    let closed := close db in
    let raised {A : Type} (r : Py A * DeviceDB) :=
      r = (Raise (ProgrammingError "Cannot operate on a closed database."),
           closed) in
    close closed = closed /\
    devices closed = devices db /\ logs closed = logs db /\
    (forall now a n r m t, raised (insert_device io now a n r m t closed)) /\
    (forall now d s r t h, raised (insert_log io now d s r t h closed)) /\
    (forall limit, raised (fetch_logs io limit closed)) /\
    (forall a limit, raised (get_device_logs io a limit closed)) /\
    (forall a, raised (get_device io a closed)) /\
    raised (fetch_all_devices io closed) /\
    raised (get_stats io closed) /\
    raised (clear_logs io closed) /\
    raised (clear_devices io closed).
Proof.
  intros db io Hc closed raised. unfold raised, closed, close. cursor_all.
  destruct (conn db); [congruence | |]; simpl; repeat split; reflexivity.
Qed.

Lemma methods_raise_after_close_witness :
  conn db_three <> NoConnection /\
  fetch_logs Completes 10 (close db_three) =
  (Raise (ProgrammingError "Cannot operate on a closed database."),
   close db_three).
Proof.
  assert (Hc : conn db_three <> NoConnection) by discriminate.
  split; [exact Hc|].
  destruct (methods_raise_after_close db_three Completes Hc)
    as (_ & _ & _ & _ & _ & Hfetch & _).
  exact (Hfetch 10).
Defined.

(** * Further properties of the sync and of the cached reads *)

Lemma sync_cache_unfold env chain db :
  sync_cache env chain db =
  match insert_logs env 0 (entries_of chain) db with
  | (Return _, db') =>
      (build_response "success" None None (Some "Cache synced"%string) [], db')
  | (Raise e, db') =>
      (build_response "error" None None (Some (str_exn e)) [], db')
  end.
Proof.
  destruct chain as [|e|events].
  - reflexivity.
  - unfold sync_cache.
    assert (Hs : status_is "success" (get_logs (FilterRaises e)) = false).
    { unfold get_logs, build_response.
      destruct (truthy (Some (str_exn e))); reflexivity. }
    rewrite Hs. reflexivity.
  - unfold sync_cache. destruct (get_logs_entries events) as [-> ->].
    simpl. destruct (insert_logs env 0 (map log_entry_of events) db)
      as [[u | e] db']; reflexivity.
Qed.

Lemma insert_log_not_closed io now d s r t h db :
  conn db <> Closed ->
  exists b, fst (insert_log io now d s r t h db) = Return b.
Proof.
  intros Hc. cursor. destruct (conn db); [| |congruence].
  - eexists. reflexivity.
  - destruct io; eexists; reflexivity.
Qed.

Lemma insert_logs_not_closed env entries :
  forall k db,
    conn db <> Closed -> fst (insert_logs env k entries db) = Return tt.
Proof.
  induction entries as [|a entries IH]; intros k db Hc; simpl; auto.
  destruct (insert_log_not_closed (sqlite3_at env k) (time_at env k)
              (device a) (success a) (reason a) (timestamp a) (tx_hash a)
              db Hc) as [b Hb].
  destruct (insert_log_effect (sqlite3_at env k) (time_at env k)
              (device a) (success a) (reason a) (timestamp a) (tx_hash a) db)
    as (Hc' & _).
  destruct (insert_log (sqlite3_at env k) (time_at env k) (device a)
              (success a) (reason a) (timestamp a) (tx_hash a) db)
    as [[b' | e] db1]; simpl in *; [|discriminate].
  apply IH. congruence.
Qed.

(** X10. [sync_cache] returns the [error] response in one case only: the
    store was closed and the fetch brought at least one entry; the store is
    then unchanged and the message is sqlite3's.  In every other case it
    returns the [success] response "Cache synced", also when every insert
    fails with a storage error, since the loop drops what [insert_log]
    returns. *)
Theorem sync_cache_error_only_when_closed :
  forall (env : Env) (chain : EventFilter) (db : DeviceDB),
    (conn db = Closed /\ entries_of chain <> [] ->
     sync_cache env chain db =
     (build_response "error" None None
        (Some "Cannot operate on a closed database."%string) [], db)) /\
    (conn db <> Closed \/ entries_of chain = [] ->
     fst (sync_cache env chain db) =
     build_response "success" None None (Some "Cache synced"%string) []) /\
    (conn db = Connected -> (forall k, exists msg, sqlite3_at env k = Fails msg) ->
     sync_cache env chain db =
     (build_response "success" None None (Some "Cache synced"%string) [], db)).
Proof.
  intros env chain db. rewrite sync_cache_unfold. split; [|split].
  - intros [Hc Hne]. destruct (entries_of chain) as [|a entries]; [congruence|].
    simpl. cursor. rewrite Hc. reflexivity.
  - intros [Hc | He].
    + pose proof (insert_logs_not_closed env (entries_of chain) 0%nat db Hc)
        as Hr.
      destruct (insert_logs env 0 (entries_of chain) db) as [[u | e] db'];
        simpl in *; [reflexivity | discriminate].
    + rewrite He. reflexivity.
  - intros Hc Hall.
    assert (H : forall entries k,
               insert_logs env k entries db = (Return tt, db)).
    { induction entries as [|a entries IH]; intros k; simpl; auto.
      destruct (Hall k) as [msg Hk]. cursor. rewrite Hc, Hk. simpl.
      apply IH. }
    rewrite H. reflexivity.
Qed.

Lemma sync_cache_error_only_when_closed_witness :
  let env := mkEnv (fun _ => Fails "disk I/O error") (fun _ => 1000) in
  sync_cache env (AllEntries [event_tx1]) (close db_three) =
  (build_response "error" None None
     (Some "Cannot operate on a closed database."%string) [],
   close db_three) /\
  sync_cache env (AllEntries [event_tx1; event_tx2]) new_db =
  (build_response "success" None None (Some "Cache synced"%string) [], new_db).
Proof.
  intros env. split.
  - apply (proj1 (sync_cache_error_only_when_closed env
                    (AllEntries [event_tx1]) (close db_three))).
    split; [reflexivity | discriminate].
  - apply (proj2 (proj2 (sync_cache_error_only_when_closed env
                           (AllEntries [event_tx1; event_tx2]) new_db))).
    + reflexivity.
    + intros k. eexists. reflexivity.
Defined.

Lemma insert_logs_appends env entries :
  forall k db,
    let db' := snd (insert_logs env k entries db) in
    conn db' = conn db /\ devices db' = devices db /\
    exists added,
      logs db' = logs db ++ added /\
      Forall (fun r => In (Log.txHash r) (map tx_hash entries)) added /\
      (List.length added <= List.length entries)%nat.
Proof.
  induction entries as [|a entries IH]; intros k db; simpl.
  - repeat split; auto. exists []. rewrite app_nil_r. repeat split; auto.
  - pose proof (insert_log_effect (sqlite3_at env k) (time_at env k)
                  (device a) (success a) (reason a) (timestamp a) (tx_hash a)
                  db) as He.
    destruct (insert_log (sqlite3_at env k) (time_at env k) (device a)
                (success a) (reason a) (timestamp a) (tx_hash a) db)
      as [[b | e] db1]; simpl in He; destruct He as (Hc & Hd & Hl).
    + destruct (IH (S k) db1) as (Hc' & Hd' & added & Hl' & Hin & Hlen).
      simpl in *. split; [congruence|]. split; [congruence|].
      destruct Hl as [Hl | [_ Hl]]; rewrite Hl in Hl'.
      * exists added. repeat split; auto.
        eapply Forall_impl; [|exact Hin]. intros x Hx. right. exact Hx.
      * exists (Log.mk (logs_seq db + 1) (device a)
                  (int_of_bool (success a)) (reason a) (timestamp a)
                  (tx_hash a) (time_at env k) :: added).
        rewrite <- app_assoc in Hl'. simpl in Hl'.
        repeat split; auto; [|simpl; lia].
        constructor; [left; reflexivity|].
        eapply Forall_impl; [|exact Hin]. intros x Hx. right. exact Hx.
    + simpl. split; [exact Hc|]. split; [exact Hd|].
      destruct Hl as [Hl | [_ Hl]]; rewrite Hl.
      * exists []. rewrite app_nil_r. repeat split; auto. simpl. lia.
      * eexists. split; [reflexivity|]. split; [|simpl; lia].
        constructor; [left; reflexivity | constructor].
Qed.

(** X11. [sync_cache] only ever adds logs.  Whatever the ledger answers and
    whatever fails, the rows stored before are still there afterwards,
    unchanged and in the same order, the devices are untouched, and every
    added row carries the transaction hash of a fetched event; at most one
    row is added per fetched event. *)
Theorem sync_cache_only_appends :
  forall (env : Env) (chain : EventFilter) (db : DeviceDB),
    let db' := snd (sync_cache env chain db) in
    conn db' = conn db /\ devices db' = devices db /\
    exists added,
      logs db' = logs db ++ added /\
      Forall (fun r => In (Log.txHash r) (map tx_hash (entries_of chain)))
        added /\
      (List.length added <= List.length (entries_of chain))%nat.
Proof.
  intros env chain db db'. unfold db'. rewrite sync_cache_snd.
  apply insert_logs_appends.
Qed.

Lemma insert_logs_unique env entries :
  forall k db,
    txHash_unique db -> txHash_unique (snd (insert_logs env k entries db)).
Proof.
  induction entries as [|a entries IH]; intros k db Hu; simpl; auto.
  pose proof (insert_log_unique (sqlite3_at env k) (time_at env k) (device a)
                (success a) (reason a) (timestamp a) (tx_hash a) db Hu) as Hu1.
  destruct (insert_log (sqlite3_at env k) (time_at env k) (device a)
              (success a) (reason a) (timestamp a) (tx_hash a) db)
    as [[b | e] db1]; simpl in *; auto.
Qed.

Lemma entries_of_hashes events :
  map tx_hash (entries_of (AllEntries events)) = map transactionHash events.
Proof. simpl. rewrite map_map. reflexivity. Qed.

(** X12. After a sync with no failing statement on a connected store that
    holds no logs, the cache holds exactly one row per distinct transaction
    hash of the fetched events: the stored hashes are those of the events,
    none twice, and [total_logs] is the number of distinct hashes. *)
Theorem sync_cache_one_row_per_event_hash :
  forall (clock : nat -> Z) (events : list EventEntry) (db : DeviceDB),
    conn db = Connected ->
    logs db = [] ->
    let db' := snd (sync_cache (healthy clock) (AllEntries events) db) in
    NoDup (map Log.txHash (logs db')) /\
    (forall h, In h (map Log.txHash (logs db')) <->
               In h (map transactionHash events)) /\
    fst (get_stats Completes db') =
    Return (mkStats (Z.of_nat (List.length (devices db)))
              (Z.of_nat (List.length
                 (nodup string_dec (map transactionHash events))))).
Proof.
  intros clock events db Hc Hl db'.
  assert (Hu : txHash_unique db) by (unfold txHash_unique; rewrite Hl; constructor).
  destruct (insert_logs_healthy clock (map log_entry_of events) 0%nat db Hc)
    as (d1 & Hrun & Hc1 & Hd1 & _ & Hall).
  destruct (insert_logs_appends (healthy clock) (map log_entry_of events)
              0%nat db) as (_ & _ & added & Hadd & Hin & _).
  assert (Hdb : db' = d1).
  { unfold db'. rewrite sync_cache_entries, Hrun. reflexivity. }
  rewrite Hrun in Hadd. simpl in Hadd. rewrite Hl in Hadd. simpl in Hadd.
  assert (Hnd : NoDup (map Log.txHash (logs d1))).
  { pose proof (insert_logs_unique (healthy clock) (map log_entry_of events)
                  0%nat db Hu) as Hu'.
    rewrite Hrun in Hu'. exact Hu'. }
  assert (Hiff : forall h, In h (map Log.txHash (logs d1)) <->
                           In h (map transactionHash events)).
  { intros h. rewrite <- entries_of_hashes. simpl. split.
    - intros Hh. apply in_map_iff in Hh. destruct Hh as (r & <- & Hr).
      rewrite Hadd in Hr. rewrite Forall_forall in Hin. apply Hin. exact Hr.
    - intros Hh. apply in_map_iff in Hh. destruct Hh as (e & <- & He).
      apply has_txHash_In. apply Hall. exact He. }
  rewrite Hdb. split; [exact Hnd|]. split; [exact Hiff|].
  rewrite (get_stats_completes d1 Hc1), Hd1. do 3 f_equal.
  rewrite <- (length_map Log.txHash). apply Permutation_length.
  apply NoDup_Permutation; [exact Hnd | apply NoDup_nodup|].
  intros h. rewrite nodup_In. apply Hiff.
Qed.

Lemma sync_cache_one_row_per_event_hash_witness :
  conn new_db = Connected /\ logs new_db = [] /\
  fst (get_stats Completes
         (snd (sync_cache (healthy (fun _ => 1000))
                 (AllEntries [event_tx1; event_tx2; event_tx1]) new_db))) =
  Return (mkStats 0 2).
Proof.
  assert (Hc : conn new_db = Connected) by reflexivity.
  assert (Hl : logs new_db = []) by reflexivity.
  split; [exact Hc|]. split; [exact Hl|].
  exact (proj2 (proj2 (sync_cache_one_row_per_event_hash (fun _ => 1000)
                         [event_tx1; event_tx2; event_tx1] new_db Hc Hl))).
Defined.

(** X13. [get_cached_logs] reports a storage failure as an empty cache: on
    a store that is not closed the response is always [success], its data
    are the rows [fetch_logs] returns, and under a storage failure the data
    are an empty list.  Only a closed store gives the [error] response. *)
Theorem get_cached_logs_hides_storage_failure :
  forall (io : Sqlite3) (limit : Z) (db : DeviceDB),
    (conn db <> Closed ->
     exists rows,
       fst (fetch_logs io limit db) = Return rows /\
       get_cached_logs io limit db =
       (build_response "success" (Some (VRows rows)) None None [], db)) /\
    (storage_failure io db ->
     get_cached_logs io limit db =
     (build_response "success" (Some (VRows [])) None None [], db)) /\
    (conn db = Closed ->
     get_cached_logs io limit db =
     (build_response "error" None None
        (Some "Cannot operate on a closed database."%string) [], db)).
Proof.
  intros io limit db. unfold get_cached_logs. cursor. split; [|split].
  - intros Hc. destruct (conn db); [| |congruence].
    + eexists. split; reflexivity.
    + destruct io; eexists; split; reflexivity.
  - intros [-> | [-> [msg ->]]]; reflexivity.
  - intros ->. reflexivity.
Qed.

Lemma get_cached_logs_hides_storage_failure_witness :
  storage_failure (Fails "disk I/O error") db_three /\
  get_cached_logs (Fails "disk I/O error") 10 db_three =
  (build_response "success" (Some (VRows [])) None None [], db_three).
Proof.
  assert (Hf : storage_failure (Fails "disk I/O error") db_three).
  { right. split; [reflexivity|]. eexists. reflexivity. }
  split; [exact Hf|].
  exact (proj1 (proj2 (get_cached_logs_hides_storage_failure
                         (Fails "disk I/O error") 10 db_three)) Hf).
Defined.

(** * Further properties of utils.py and of the facade *)

Lemma dict_get_set_same k v d : dict_get k (dict_set k v d) = Some v.
Proof.
  induction d as [|[k' v'] d IH]; simpl.
  - rewrite String.eqb_refl. reflexivity.
  - destruct (String.eqb k' k) eqn:Hk; simpl; rewrite ?Hk.
    + rewrite String.eqb_refl. reflexivity.
    + exact IH.
Qed.

Lemma dict_get_set_other k k' v d :
  k <> k' -> dict_get k (dict_set k' v d) = dict_get k d.
Proof.
  intros Hne. induction d as [|[k'' v''] d IH]; simpl.
  - assert (H : String.eqb k' k = false)
      by (apply String.eqb_neq; congruence).
    rewrite H. reflexivity.
  - destruct (String.eqb k'' k') eqn:Hk; simpl.
    + apply String.eqb_eq in Hk. subst k''.
      assert (H : String.eqb k' k = false)
        by (apply String.eqb_neq; congruence).
      rewrite H. reflexivity.
    + destruct (String.eqb k'' k); [reflexivity | exact IH].
Qed.

Lemma dict_get_update_other k kwargs :
  ~ In k (map fst kwargs) ->
  forall d, dict_get k (dict_update d kwargs) = dict_get k d.
Proof.
  unfold dict_update.
  induction kwargs as [|[k' v'] kwargs IH]; intros Hn d; simpl; auto.
  rewrite IH.
  - apply dict_get_set_other. intros ->. apply Hn. left. reflexivity.
  - intros Hin. apply Hn. right. exact Hin.
Qed.

(** X14. What a caller finds in a response of [build_response]: [status]
    is always there with the given value; [data] is there whenever it is
    not [None], an empty list included; [tx_hash] and [message] are there
    only when given and not empty, so an empty message leaves no [message]
    key.  This holds for any extra keyword arguments (which cannot bear one
    of the four names). *)
Theorem build_response_keys :
  forall (status : string) (data : option Value)
         (tx_hash message : option string) (kwargs : Dict),
    (forall k, In k reserved_keys -> ~ In k (map fst kwargs)) ->
    let response := build_response status data tx_hash message kwargs in
    dict_get "status" response = Some (VStr status) /\
    dict_get "data" response = data /\
    dict_get "tx_hash" response =
    (if truthy tx_hash then option_map (fun h => VStr h) tx_hash else None) /\
    dict_get "message" response =
    (if truthy message then option_map (fun m => VStr m) message else None).
Proof.
  intros status data tx_hash message kwargs Hk response.
  unfold response, build_response.
  rewrite !dict_get_update_other
    by (apply Hk; simpl; auto).
  destruct data as [v|];
    destruct tx_hash as [[|c1 h]|];
    destruct message as [[|c2 m]|]; repeat split; reflexivity.
Qed.

Lemma build_response_keys_witness :
  dict_get "message" (build_response "error" None None (Some ""%string) []) =
  None /\
  dict_get "data"
    (build_response "success" (Some (VLogs [])) None None
       [("count"%string, VInt 0)]) = Some (VLogs []).
Proof.
  split.
  - refine (proj2 (proj2 (proj2 (build_response_keys "error" None None
                                   (Some ""%string) [] _)))).
    intros k _ [].
  - refine (proj1 (proj2 (build_response_keys "success" (Some (VLogs [])) None
                            None [("count"%string, VInt 0)] _))).
    intros k Hk [H | []]. simpl in H. subst k.
    simpl in Hk. intuition discriminate.
Defined.

Lemma status_is_build_response s d t m kw :
  (forall k, In k reserved_keys -> ~ In k (map fst kw)) ->
  forall s', status_is s' (build_response s d t m kw) = String.eqb s s'.
Proof.
  intros Hk s'. unfold status_is, build_response.
  rewrite dict_get_update_other by (apply Hk; simpl; auto).
  destruct d; destruct t as [[|? ?]|]; destruct m as [[|? ?]|];
    simpl; rewrite ?String.eqb_refl; reflexivity.
Qed.

(** X15. [_send_transaction] leaves the cache alone and turns every outcome
    of its [try] block into a response: [success] exactly when the receipt's
    status is 1, [failed] exactly when a receipt came with another status,
    [error] exactly when something raised.  A [success] or [failed] response
    means the transaction was submitted; in no case is more than the one
    request sent.  [log_access] has no address guard: when the ABI lacks
    [logAccess] the lookup raises and nothing is sent, otherwise it returns
    what [_send_transaction] returns. *)
Theorem send_transaction_outcomes :
  forall (transact : list LedgerCall -> LedgerCall -> TxOutcome)
         (function : string) (args : list Scalar) (c : IAMClient),
    let request := Transact function args in
    let result := _send_transaction transact function args c in
    _cache_manager (snd result) = _cache_manager c /\
    (status_is "success" (fst result) = true <->
     exists h g, transact (ledger_calls c) request = Receipt 1 h g) /\
    (status_is "failed" (fst result) = true <->
     exists st h g,
       transact (ledger_calls c) request = Receipt st h g /\ st <> 1) /\
    (status_is "error" (fst result) = true <->
     (exists sub m,
        transact (ledger_calls c) request = ContractLogicError sub m) \/
     (exists sub m, transact (ledger_calls c) request = TxRaises sub m)) /\
    (status_is "error" (fst result) = false ->
     ledger_calls (snd result) = ledger_calls c ++ [request]) /\
    (ledger_calls (snd result) = ledger_calls c \/
     ledger_calls (snd result) = ledger_calls c ++ [request]) /\
    (forall contract_functions function_not_found reason,
       (hasattr contract_functions "logAccess" = true ->
        log_access contract_functions function_not_found transact reason c =
        (Return (fst (_send_transaction transact "logAccess" [SStr reason] c)),
         snd (_send_transaction transact "logAccess" [SStr reason] c))) /\
       (hasattr contract_functions "logAccess" = false ->
        log_access contract_functions function_not_found transact reason c =
        (Raise (function_not_found "logAccess"%string), c))).
Proof.
  intros transact function args c request result.
  unfold result, _send_transaction. fold request. cbn [fst snd].
  pose proof status_is_build_response as Hstatus.
  assert (Hnone : forall k, In k reserved_keys ->
                    ~ In k (@map (string * Value) _ fst [])).
  { intros k _ []. }
  assert (Hgas : forall g k, In k reserved_keys ->
                   ~ In k (map fst [("gas_used"%string, VInt g)])).
  { intros g k Hk [H | []]. simpl in H. subst k.
    simpl in Hk. intuition discriminate. }
  assert (Hlog : forall contract_functions function_not_found reason,
             (hasattr contract_functions "logAccess" = true ->
              log_access contract_functions function_not_found transact
                reason c =
              (Return (fst (_send_transaction transact "logAccess"
                              [SStr reason] c)),
               snd (_send_transaction transact "logAccess" [SStr reason] c))) /\
             (hasattr contract_functions "logAccess" = false ->
              log_access contract_functions function_not_found transact
                reason c = (Raise (function_not_found "logAccess"%string), c))).
  { intros fs nf reason. unfold log_access, contract_function.
    split; intros ->; reflexivity. }
  destruct (transact (ledger_calls c) request) as [st h g | sub m | sub m]
    eqn:Ht; cbn [was_submitted].
  - destruct (st =? 1) eqn:Hst.
    + apply Z.eqb_eq in Hst. subst st.
      rewrite !Hstatus by (apply Hgas). simpl.
      repeat split; try discriminate; eauto;
      try (apply (proj1 (Hlog _ _ _))); try (apply (proj2 (Hlog _ _ _))).
      * intros (st & h' & g' & H & Hne). injection H as <- _ _. congruence.
      * intros [(sub & m & H) | (sub & m & H)]; discriminate.
    + apply Z.eqb_neq in Hst.
      rewrite !Hstatus by (apply Hnone). simpl.
      repeat split; try discriminate; eauto;
      try (apply (proj1 (Hlog _ _ _))); try (apply (proj2 (Hlog _ _ _))).
      * intros (h' & g' & H). injection H as -> _ _. congruence.
      * intros [(sub & m & H) | (sub & m & H)]; discriminate.
  - rewrite !Hstatus by (apply Hnone). simpl.
    repeat split; try discriminate; eauto;
      try (apply (proj1 (Hlog _ _ _))); try (apply (proj2 (Hlog _ _ _))).
    + destruct sub; reflexivity.
    + intros (h' & g' & H). discriminate.
    + intros (st & h' & g' & H & _). discriminate.
    + destruct sub; simpl; auto.
  - rewrite !Hstatus by (apply Hnone). simpl.
    repeat split; try discriminate; eauto;
      try (apply (proj1 (Hlog _ _ _))); try (apply (proj2 (Hlog _ _ _))).
    + destruct sub; reflexivity.
    + intros (h' & g' & H). discriminate.
    + intros (st & h' & g' & H & _). discriminate.
    + destruct sub; simpl; auto.
Qed.

Lemma send_transaction_outcomes_witness :
  let c := mkClient new_db [] in
  let transact := fun (_ : list LedgerCall) (_ : LedgerCall) =>
                    TxRaises false "connection refused" in
  log_access ["registerDevice"%string] (fun _ => OtherError "no such function")
    transact "door" c = (Raise (OtherError "no such function"), c) /\
  log_access ["logAccess"%string] (fun _ => OtherError "no such function")
    transact "door" c =
  (Return (build_response "error" None None (Some "connection refused"%string)
             []), c).
Proof.
  intros c transact.
  destruct (send_transaction_outcomes transact "logAccess"
              [SStr "door"] c) as (_ & _ & _ & _ & _ & _ & Hlog).
  split.
  - apply (proj2 (Hlog ["registerDevice"%string]
                    (fun _ => OtherError "no such function") "door"%string)).
    reflexivity.
  - apply (proj1 (Hlog ["logAccess"%string]
                    (fun _ => OtherError "no such function") "door"%string)).
    reflexivity.
Defined.

Lemma quiet_unchanged c (x : Py Dict) : quiet c (x, c).
Proof. unfold quiet. simpl. auto. Qed.

Lemma quiet_sent c (x : Py Dict) request : quiet c (x, sent request c).
Proof.
  unfold quiet, sent. simpl. split; [reflexivity|].
  right. eexists. reflexivity.
Qed.

Lemma quiet_send_transaction transact function args c (x : Py Dict) :
  quiet c (x, snd (_send_transaction transact function args c)).
Proof.
  unfold _send_transaction. cbn [snd].
  destruct (was_submitted _); [apply quiet_sent | apply quiet_unchanged].
Qed.

Lemma answered_unchanged c response : answered c (Return response, c).
Proof. split; [simpl; eauto | apply quiet_unchanged]. Qed.

Lemma answered_sent c response request :
  answered c (Return response, sent request c).
Proof. split; [simpl; eauto | apply quiet_sent]. Qed.

(** The four transaction operations share one course. *)
Lemma guarded_transaction_course to_checksum_address contract_functions
    function_not_found transact name address rest c :
  let r := guarded_transaction to_checksum_address contract_functions
             function_not_found transact name address rest c in
  quiet c r /\
  (validate_address to_checksum_address address = false \/
   hasattr contract_functions name = true ->
   exists response, fst r = Return response) /\
  (validate_address to_checksum_address address = true ->
   hasattr contract_functions name = false ->
   r = (Raise (function_not_found name), c)).
Proof.
  unfold guarded_transaction, validate_address, format_address,
    contract_function.
  destruct (to_checksum_address address) as [a|]; cbn [negb];
    [destruct (hasattr contract_functions name); cbn [negb]|].
  - destruct (_send_transaction transact name (SStr a :: rest) c)
      as [response c'] eqn:Hs.
    split; [|split].
    + pose proof (quiet_send_transaction transact name (SStr a :: rest) c
                    (Return response)) as Hq.
      rewrite Hs in Hq. exact Hq.
    + intros _. eexists. reflexivity.
    + intros _ H. discriminate.
  - split; [apply quiet_unchanged|]. split.
    + intros [H | H]; discriminate.
    + reflexivity.
  - split; [apply quiet_unchanged|]. split.
    + intros _. eexists. reflexivity.
    + intros H. discriminate.
Qed.

(** X16. The six guarded operations of the facade never write the cache and
    send at most one request to the ledger, for every address and whatever
    the ledger does.  [check_access] and [get_device_info] never raise: they
    always return a response.  [register_device], [grant_access],
    [revoke_access] and [assign_role] return a response when the address is
    invalid or the contract has their function; for a valid address and an
    ABI without the function they raise the lookup's exception and send
    nothing. *)
Theorem facade_raises_only_for_missing_function :
  forall (to_checksum_address : string -> option string)
         (contract_functions : list string)
         (function_not_found : string -> Exn)
         (transact : list LedgerCall -> LedgerCall -> TxOutcome)
         (call_value : list LedgerCall -> LedgerCall -> Py Scalar)
         (call_tuple : list LedgerCall -> LedgerCall -> Py (list Scalar))
         (address : string) (c : IAMClient),
    let guarded (name : string) (r : Py Dict * IAMClient) :=
      quiet c r /\
      (validate_address to_checksum_address address = false \/
       hasattr contract_functions name = true ->
       exists response, fst r = Return response) /\
      (validate_address to_checksum_address address = true ->
       hasattr contract_functions name = false ->
       r = (Raise (function_not_found name), c)) in
    (forall name role metadata,
       guarded "registerDevice"%string
         (register_device to_checksum_address contract_functions
            function_not_found transact address name role metadata c)) /\
    (forall expiry,
       guarded "grantAccess"%string
         (grant_access to_checksum_address contract_functions
            function_not_found transact address expiry c)) /\
    guarded "revokeAccess"%string
      (revoke_access to_checksum_address contract_functions function_not_found
         transact address c) /\
    (forall role,
       guarded "assignRole"%string
         (assign_role to_checksum_address contract_functions
            function_not_found transact address role c)) /\
    answered c (check_access to_checksum_address contract_functions call_value
                  address c) /\
    answered c (get_device_info to_checksum_address contract_functions
                  call_tuple address c).
Proof.
  intros to_checksum_address contract_functions function_not_found transact
    call_value call_tuple address c guarded.
  unfold guarded, register_device, grant_access, revoke_access, assign_role.
  split; [intros; apply guarded_transaction_course|].
  split; [intros; apply guarded_transaction_course|].
  split; [apply guarded_transaction_course|].
  split; [intros; apply guarded_transaction_course|].
  split.
  - unfold check_access, validate_address, format_address.
    destruct (to_checksum_address address) as [a|]; cbn [negb];
      [|apply answered_unchanged].
    destruct (first_function _ _) as [f|]; [|apply answered_unchanged].
    destruct (call_value _ _); apply answered_sent.
  - unfold get_device_info, validate_address, format_address.
    destruct (to_checksum_address address) as [a|]; cbn [negb];
      [|apply answered_unchanged].
    destruct (first_function _ _) as [f|]; [|apply answered_unchanged].
    destruct (call_tuple _ _); apply answered_sent.
Qed.

Lemma facade_raises_only_for_missing_function_witness :
  let c := mkClient new_db [] in
  let a := "0x5aAeb6053F3E94C9b9A09f33669435E7Ef1BeAed"%string in
  let missing := fun name : string => OtherError name in
  let transact := fun (_ : list LedgerCall) (_ : LedgerCall) =>
                    Receipt 1 "0xabc" 21000 in
  grant_access length_42 ["registerDevice"%string] missing transact a 0 c =
  (Raise (OtherError "grantAccess"), c) /\
  exists response,
    fst (register_device length_42 ["registerDevice"%string] missing transact
           a "Device1" "sensor" "" c) = Return response.
Proof.
  intros c a missing transact.
  destruct (facade_raises_only_for_missing_function length_42
              ["registerDevice"%string] missing transact
              (fun _ _ => Return (SBool true)) (fun _ _ => Return []) a c)
    as (Hreg & Hgrant & _).
  split.
  - apply (proj2 (proj2 (Hgrant 0))); reflexivity.
  - apply (proj1 (proj2 (Hreg "Device1"%string "sensor"%string ""%string))).
    right. reflexivity.
Defined.

Lemma first_function_found contract_functions names f :
  first_function contract_functions names = Some f ->
  In f names /\ hasattr contract_functions f = true.
Proof. unfold first_function. apply find_some. Qed.



(** ** [truncate_address] *)

Lemma substring_0_all (s : string) : String.substring 0 (String.length s) s = s.
Proof. induction s as [|c s IH]; simpl; [reflexivity | rewrite IH; reflexivity]. Qed.

Lemma substring_0_0 (s : string) : String.substring 0 0 s = ""%string.
Proof. destruct s; reflexivity. Qed.

Lemma substring_0_length (n : nat) (s : string) :
  (n <= String.length s)%nat ->
  String.length (String.substring 0 n s) = n.
Proof.
  revert s. induction n as [|n IH]; intros s Hn.
  - rewrite substring_0_0. reflexivity.
  - destruct s as [|c s]; simpl in *; [lia|]. rewrite IH; [reflexivity | lia].
Qed.

Lemma substring_split (n : nat) (s : string) :
  (n <= String.length s)%nat ->
  s = String.append (String.substring 0 n s)
        (String.substring n (String.length s - n) s).
Proof.
  revert s. induction n as [|n IH]; intros s Hn.
  - rewrite substring_0_0, Nat.sub_0_r, substring_0_all. reflexivity.
  - destruct s as [|c s]; simpl in *; [lia|].
    rewrite <- IH; [reflexivity | lia].
Qed.

Lemma substring_tail_length (n : nat) (s : string) :
  (n <= String.length s)%nat ->
  String.length (String.substring n (String.length s - n) s) =
  (String.length s - n)%nat.
Proof.
  revert s. induction n as [|n IH]; intros s Hn.
  - rewrite Nat.sub_0_r, substring_0_all. reflexivity.
  - destruct s as [|c s]; simpl in *; [lia|]. apply IH. lia.
Qed.

Lemma string_length_append (s1 s2 : string) :
  String.length (String.append s1 s2) =
  (String.length s1 + String.length s2)%nat.
Proof. induction s1 as [|c s1 IH]; simpl; [reflexivity | rewrite IH; reflexivity]. Qed.

(** X18. [truncate_address] returns an address of at most [2 * chars]
    characters unchanged.  A longer one, for a positive [chars], is cut to
    its first [chars] characters, three dots, and its last [chars]
    characters, [2 * chars + 3] characters in all.  With [chars = 0] nothing
    is cut: the result is the three dots followed by the whole address. *)
Theorem truncate_address_shape :
  forall (address : string) (chars : Z),
    let n := Z.of_nat (String.length address) in
    (n <= chars * 2 -> truncate_address address chars = address) /\
    (0 < chars -> chars * 2 < n ->
     exists first middle last,
       address = String.append first (String.append middle last) /\
       Z.of_nat (String.length first) = chars /\
       Z.of_nat (String.length last) = chars /\
       truncate_address address chars =
       String.append first (String.append "..." last) /\
       Z.of_nat (String.length (truncate_address address chars)) =
       chars * 2 + 3) /\
    (chars = 0 -> 0 < n ->
     truncate_address address chars = String.append "..." address).
Proof.
  intros address chars n. unfold truncate_address. fold n. split; [|split].
  - intros Hle. apply Z.leb_le in Hle. rewrite Hle. reflexivity.
  - intros Hpos Hlong.
    assert (Hgt : (n <=? chars * 2) = false) by (apply Z.leb_gt; lia).
    rewrite Hgt. unfold slice_to, slice_from. fold n.
    assert (H1 : (chars <? 0) = false) by (apply Z.ltb_ge; lia).
    assert (H2 : (- chars <? 0) = true) by (apply Z.ltb_lt; lia).
    rewrite H1, H2.
    replace (Z.min chars n) with chars by lia.
    replace (Z.max 0 (n + - chars)) with (n - chars) by lia.
    replace (n - (n - chars)) with chars by lia.
    set (k := Z.to_nat chars).
    set (len := String.length address).
    assert (Hk : (2 * k < len)%nat) by (unfold k, len; lia).
    replace (Z.to_nat (n - chars)) with (len - k)%nat by (unfold k, len, n; lia).
    pose proof (substring_split k address) as Hsplit1.
    pose proof (substring_split (len - k) address) as Hsplit2.
    fold len in Hsplit1, Hsplit2.
    replace (len - (len - k))%nat with k in Hsplit2 by lia.
    set (first := String.substring 0 k address) in *.
    set (rest := String.substring k (len - k) address) in *.
    set (last := String.substring (len - k) k address) in *.
    assert (Hfirst : String.length first = k)
      by (apply substring_0_length; fold len; lia).
    assert (Hlast : String.length last = k).
    { pose proof (substring_tail_length (len - k) address) as H.
      fold len in H. replace (len - (len - k))%nat with k in H by lia.
      apply H. lia. }
    assert (Hrest : String.length rest = (len - k)%nat)
      by (apply substring_tail_length; fold len; lia).
    exists first, (String.substring 0 (len - 2 * k) rest), last.
    repeat split.
    + rewrite Hsplit1 at 1 by lia. f_equal.
      pose proof (substring_split (len - 2 * k) rest) as Hr.
      rewrite Hrest in Hr.
      replace (len - k - (len - 2 * k))%nat with k in Hr by lia.
      rewrite Hr at 1 by lia. f_equal.
      (* the last [k] characters of [rest] are the last [k] of [address] *)
      assert (Happ : forall p q r : string,
                 String.append p (String.append q r) =
                 String.append (String.append p q) r).
      { intros p q r. induction p as [|c p IH]; simpl;
          [reflexivity | rewrite IH; reflexivity]. }
      assert (Hinj : forall p q r1 r2 : string,
                 String.length p = String.length q ->
                 String.append p r1 = String.append q r2 -> r1 = r2).
      { induction p as [|c p IH]; intros [|c' q] r1 r2 Hl He; simpl in *;
          try discriminate; auto.
        injection He as _ He. eapply IH; [|exact He]. lia. }
      assert (Hwhole : address =
                String.append
                  (String.append first
                     (String.substring 0 (len - 2 * k) rest))
                  (String.substring (len - 2 * k) k rest)).
      { rewrite <- Happ. rewrite <- Hr by lia. apply Hsplit1. lia. }
      rewrite Hsplit2 in Hwhole at 1 by lia.
      symmetry. eapply Hinj; [|exact Hwhole].
      rewrite string_length_append, Hfirst.
      rewrite (substring_0_length (len - 2 * k) rest) by (rewrite Hrest; lia).
      rewrite (substring_0_length (len - k) address) by (fold len; lia).
      lia.
    + rewrite Hfirst. unfold k. lia.
    + rewrite Hlast. unfold k. lia.
    + rewrite !string_length_append, Hfirst, Hlast. simpl. unfold k. lia.
  - intros -> Hn.
    assert (Hgt : (n <=? 0 * 2) = false) by (apply Z.leb_gt; lia).
    rewrite Hgt. unfold slice_to, slice_from. fold n. simpl.
    replace (Z.min 0 n) with 0 by lia. simpl.
    rewrite substring_0_0, Z.sub_0_r. unfold n. rewrite Nat2Z.id.
    rewrite substring_0_all. reflexivity.
Qed.

Lemma truncate_address_shape_witness :
  (truncate_address "0x5aAeb6053F3E94C9b9A09f33669435E7Ef1BeAed" 8 =
   "0x5aAeb6...Ef1BeAed"%string /\
   Z.of_nat (String.length
               (truncate_address "0x5aAeb6053F3E94C9b9A09f33669435E7Ef1BeAed"
                  8)) = 8 * 2 + 3) /\
  truncate_address "0x1234" 8 = "0x1234"%string /\
  truncate_address "0x1234" 0 = "...0x1234"%string.
Proof.
  split.
  - destruct (proj1 (proj2 (truncate_address_shape
                              "0x5aAeb6053F3E94C9b9A09f33669435E7Ef1BeAed" 8)))
      as (first & middle & last & _ & _ & _ & _ & Hlen);
      [lia | simpl; lia |].
    split; [reflexivity | exact Hlen].
  - split.
    + apply (proj1 (truncate_address_shape "0x1234" 8)). simpl. lia.
    + apply (proj2 (proj2 (truncate_address_shape "0x1234" 0)));
        [reflexivity | simpl; lia].
Defined.

(** ** [CacheManager.sync_log] and [CacheManager.sync_device] *)

(** X19. A dictionary that lacks a key is synced under that key's default.
    Log entries without [tx_hash] all share the key [''], so of any two of
    them only the first is stored; device dictionaries without [address] all
    share the address [''], so the second replaces the first.  A dictionary
    with all its keys is passed on as it is to [insert_log]. *)
Theorem sync_without_key_collapses :
  forall (db : DeviceDB) (now1 now2 : Z),
    conn db = Connected ->
    (forall e1 e2,
       ld_tx_hash e1 = None -> ld_tx_hash e2 = None ->
       let db1 := snd (sync_log Completes now1 e1 db) in
       has_txHash "" (logs db1) = true /\
       fst (sync_log Completes now2 e2 db1) = Return true /\
       logs (snd (sync_log Completes now2 e2 db1)) = logs db1) /\
    (forall i1 i2,
       dd_address i1 = None -> dd_address i2 = None ->
       let db1 := snd (sync_device Completes now1 i1 db) in
       rows_for "" (snd (sync_device Completes now2 i2 db1)) =
       [Device.mk "" (get_default (dd_name i2) ""%string)
          (get_default (dd_role i2) ""%string)
          (get_default (dd_metadata i2) ""%string)
          (get_default (dd_registered_at i2) 0) now2]) /\
    (forall io d s r t h,
       sync_log io now1 (mkLogDict (Some d) (Some s) (Some r) (Some t) (Some h))
         db = insert_log io now1 d s r t h db).
Proof.
  intros db now1 now2 Hc. split; [|split].
  - intros e1 e2 H1 H2 db1. unfold db1, sync_log. rewrite H1, H2. simpl.
    rewrite (insert_log_completes db _ _ _ _ _ _ Hc). simpl.
    destruct (sql_insert_or_ignore_log_stores now1
                (get_default (ld_device e1) ""%string)
                (int_of_bool (get_default (ld_success e1) false))
                (get_default (ld_reason e1) ""%string)
                (get_default (ld_timestamp e1) 0) ""%string db)
      as (Hc1 & _ & Hin & _).
    set (d1 := sql_insert_or_ignore_log _ _ _ _ _ _ db) in *.
    rewrite Hc in Hc1.
    rewrite (insert_log_completes d1 _ _ _ _ _ _ Hc1). simpl.
    split; [exact Hin|]. split; [reflexivity|].
    unfold sql_insert_or_ignore_log. rewrite Hin. reflexivity.
  - intros i1 i2 H1 H2 db1. unfold db1, sync_device. rewrite H1, H2. simpl.
    rewrite (insert_device_completes db _ _ _ _ _ _ Hc). simpl.
    rewrite insert_device_completes by exact Hc. simpl.
    unfold rows_for. simpl.
    apply (sql_insert_or_replace_device_rows
             (Device.mk "" (get_default (dd_name i2) ""%string)
                (get_default (dd_role i2) ""%string)
                (get_default (dd_metadata i2) ""%string)
                (get_default (dd_registered_at i2) 0) now2)).
  - intros. reflexivity.
Qed.

Lemma sync_without_key_collapses_witness :
  let e1 := mkLogDict (Some "0xA"%string) (Some true) (Some "a"%string)
              (Some 10) None in
  let e2 := mkLogDict (Some "0xB"%string) None (Some "b"%string) (Some 20)
              None in
  conn new_db = Connected /\
  map Log.reason
    (logs (snd (sync_log Completes 1001 e2
                  (snd (sync_log Completes 1000 e1 new_db))))) =
  ["a"%string] /\
  logs (snd (sync_log Completes 1001 e2
               (snd (sync_log Completes 1000 e1 new_db)))) =
  logs (snd (sync_log Completes 1000 e1 new_db)).
Proof.
  intros e1 e2.
  assert (Hc : conn new_db = Connected) by reflexivity.
  split; [exact Hc|]. split; [reflexivity|].
  exact (proj2 (proj2 (proj1 (sync_without_key_collapses new_db 1000 1001 Hc)
                         e1 e2 eq_refl eq_refl))).
Defined.

(** * Properties of config.py *)

(** X20. [Config(env_file)], once [CHAIN_ID] and [GAS_LIMIT] have parsed:
    it raises [ConfigurationError] naming the first of [RPC_URL],
    [PRIVATE_KEY], [CONTRACT_ADDRESS] that is unset or empty, in that order;
    when all three are set it returns a configuration that holds the
    environment's values and for which [is_valid] is true.  A [CHAIN_ID]
    that is not a number raises [ValueError] before any of this. *)
Theorem Config_init_requires_three :
  forall (load_dotenv : string -> Environ -> Environ)
         (int_of_str : string -> option Z)
         (env_file : string) (environ : Environ),
    let env := load_dotenv env_file environ in
    let result := fst (Config_init load_dotenv int_of_str env_file environ) in
    (forall s, env "CHAIN_ID"%string = Some s -> int_of_str s = None ->
               result = inl ValueError) /\
    (forall chain gas,
       getenv_int int_of_str env "CHAIN_ID" 1337 = inr chain ->
       getenv_int int_of_str env "GAS_LIMIT" 3000000 = inr gas ->
       (is_set (env "RPC_URL"%string) = false ->
        result = inl (ConfigurationError
                        "RPC_URL is required in environment variables")) /\
       (is_set (env "RPC_URL"%string) = true ->
        is_set (env "PRIVATE_KEY"%string) = false ->
        result = inl (ConfigurationError
                        "PRIVATE_KEY is required in environment variables")) /\
       (is_set (env "RPC_URL"%string) = true ->
        is_set (env "PRIVATE_KEY"%string) = true ->
        is_set (env "CONTRACT_ADDRESS"%string) = false ->
        result = inl (ConfigurationError
                        "CONTRACT_ADDRESS is required in environment variables")) /\
       (is_set (env "RPC_URL"%string) = true ->
        is_set (env "PRIVATE_KEY"%string) = true ->
        is_set (env "CONTRACT_ADDRESS"%string) = true ->
        exists c,
          result = inr c /\ is_valid c = true /\
          rpc_url c = env "RPC_URL"%string /\
          private_key c = env "PRIVATE_KEY"%string /\
          contract_address c = env "CONTRACT_ADDRESS"%string /\
          chain_id c = chain /\ gas_limit c = gas)).
Proof.
  intros load_dotenv int_of_str env_file environ env result.
  unfold result, Config_init. fold env. split.
  - intros s Hs Hn. unfold getenv_int. rewrite Hs, Hn. reflexivity.
  - intros chain gas -> ->. unfold _validate, is_valid. simpl.
    split; [|split; [|split]].
    + intros ->. reflexivity.
    + intros -> ->. reflexivity.
    + intros -> -> ->. reflexivity.
    + intros H1 H2 H3. rewrite H1, H2, H3. simpl.
      eexists. split; [reflexivity|]. simpl. rewrite H1, H2, H3.
      repeat split.
Qed.

Lemma Config_init_requires_three_witness :
  let environ :=
    setenv "RPC_URL" "http://127.0.0.1:8545"
      (setenv "PRIVATE_KEY" "" (fun _ => None)) in
  fst (Config_init (fun _ e => e) example_int ".env" environ) =
  inl (ConfigurationError "PRIVATE_KEY is required in environment variables").
Proof.
  intros environ.
  refine (proj1 (proj2 (proj2 (Config_init_requires_three (fun _ e => e)
                                 example_int ".env" environ) 1337 3000000
                          eq_refl eq_refl)) eq_refl eq_refl).
Defined.

Lemma setenv_same key value environ : setenv key value environ key = Some value.
Proof. unfold setenv. rewrite String.eqb_refl. reflexivity. Qed.

Lemma setenv_if_set key value environ :
  truthy (Some value) = true ->
  setenv_if key (Some value) environ = setenv key value environ.
Proof. unfold setenv_if. intros ->. reflexivity. Qed.

(** X21. [ConfigBuilder.build] with the three required values given and not
    empty succeeds whatever the environment and the [.env] file hold, as
    long as [load_dotenv] does not override variables that are set (its
    default) and [int(str(n))] gives back the chain id and the gas limit:
    the configuration carries the builder's five values.  The values stay in
    [os.environ]: a later [build] of a new, empty builder succeeds with the
    same three values and the default chain id and gas limit. *)
Theorem build_uses_builder_values :
  forall (load_dotenv : string -> Environ -> Environ)
         (int_of_str : string -> option Z) (str_of_int : Z -> string)
         (b : ConfigBuilder) (environ : Environ) (url key address : string),
    (forall file env k v, env k = Some v -> load_dotenv file env k = Some v) ->
    int_of_str (str_of_int (_chain_id b)) = Some (_chain_id b) ->
    int_of_str (str_of_int (_gas_limit b)) = Some (_gas_limit b) ->
    int_of_str (str_of_int 1337) = Some 1337 ->
    int_of_str (str_of_int 3000000) = Some 3000000 ->
    _rpc_url b = Some url -> truthy (Some url) = true ->
    _private_key b = Some key -> truthy (Some key) = true ->
    _contract_address b = Some address -> truthy (Some address) = true ->
    let first := build load_dotenv int_of_str str_of_int b environ in
    let second := build load_dotenv int_of_str str_of_int new_builder
                    (snd first) in
    (exists abi,
       fst first =
       inr (mkConfig (Some url) (Some key) (Some address) (_chain_id b)
              (_gas_limit b) abi)) /\
    (exists abi,
       fst second =
       inr (mkConfig (Some url) (Some key) (Some address) 1337 3000000 abi)).
Proof.
  intros load_dotenv int_of_str str_of_int b environ url key address
    Hkeep Hchain Hgas H1337 H3M Hu Hu' Hk Hk' Ha Ha' first second.
  assert (Hinit : forall env chain gas,
             env "RPC_URL"%string = Some url ->
             env "PRIVATE_KEY"%string = Some key ->
             env "CONTRACT_ADDRESS"%string = Some address ->
             env "CHAIN_ID"%string = Some (str_of_int chain) ->
             env "GAS_LIMIT"%string = Some (str_of_int gas) ->
             int_of_str (str_of_int chain) = Some chain ->
             int_of_str (str_of_int gas) = Some gas ->
             let env' := load_dotenv ".env"%string env in
             Config_init load_dotenv int_of_str ".env" env =
             (inr (mkConfig (Some url) (Some key) (Some address) chain gas
                     (get_default (env' "ABI_PATH"%string) "ABI.json"%string)),
              env') /\
             env' "RPC_URL"%string = Some url /\
             env' "PRIVATE_KEY"%string = Some key /\
             env' "CONTRACT_ADDRESS"%string = Some address).
  { intros env chain gas E1 E2 E3 E4 E5 Pc Pg env'.
    apply (Hkeep ".env"%string) in E1, E2, E3, E4, E5. fold env' in E1, E2, E3, E4, E5.
    unfold Config_init, getenv_int. fold env'.
    rewrite E4, Pc, E5, Pg, E1, E2, E3.
    unfold _validate, is_set. cbn [rpc_url private_key contract_address].
    rewrite Hu', Hk', Ha'. simpl. auto. }
  destruct (Hinit
              (setenv "GAS_LIMIT" (str_of_int (_gas_limit b))
                 (setenv "CHAIN_ID" (str_of_int (_chain_id b))
                    (setenv "CONTRACT_ADDRESS" address
                       (setenv "PRIVATE_KEY" key
                          (setenv "RPC_URL" url environ)))))
              (_chain_id b) (_gas_limit b))
    as (Hfirst & R1 & R2 & R3); try reflexivity; try assumption.
  unfold second, first, build. rewrite Hu, Hk, Ha.
  rewrite !setenv_if_set by assumption. rewrite Hfirst.
  cbn [fst snd new_builder _rpc_url _private_key _contract_address _chain_id
         _gas_limit setenv_if].
  split; [eexists; reflexivity|].
  match goal with
  | |- context [Config_init _ _ _ ?e] =>
      destruct (Hinit e 1337 3000000) as (Hsecond & _);
        try reflexivity; try assumption
  end.
  rewrite Hsecond. eexists. reflexivity.
Qed.

Lemma build_uses_builder_values_witness :
  let b :=
    with_chain_id 5
      (with_contract_address "0x5aAeb6053F3E94C9b9A09f33669435E7Ef1BeAed"
         (with_private_key "0xkey"
            (with_rpc_url "http://127.0.0.1:8545" new_builder))) in
  let environ := setenv "RPC_URL" "http://other" (fun _ => None) in
  let first := build (fun _ e => e) example_int example_str b environ in
  fst first =
  inr (mkConfig (Some "http://127.0.0.1:8545"%string) (Some "0xkey"%string)
         (Some "0x5aAeb6053F3E94C9b9A09f33669435E7Ef1BeAed"%string)
         5 3000000 "ABI.json") /\
  exists abi,
    fst (build (fun _ e => e) example_int example_str new_builder (snd first)) =
    inr (mkConfig (Some "http://127.0.0.1:8545"%string) (Some "0xkey"%string)
           (Some "0x5aAeb6053F3E94C9b9A09f33669435E7Ef1BeAed"%string)
           1337 3000000 abi).
Proof.
  intros b environ first. split; [reflexivity|].
  refine (proj2 (build_uses_builder_values (fun _ e => e) example_int
                   example_str b environ "http://127.0.0.1:8545"%string
                   "0xkey"%string
                   "0x5aAeb6053F3E94C9b9A09f33669435E7Ef1BeAed"%string
                   _ eq_refl eq_refl eq_refl eq_refl eq_refl eq_refl eq_refl
                   eq_refl eq_refl eq_refl)).
  intros file env k v H. exact H.
Defined.

(** * Events as they reach the cache *)

Lemma insert_logs_mirror env entries :
  forall k db,
    exists added,
      logs (snd (insert_logs env k entries db)) = logs db ++ added /\
      Forall (fun r =>
                exists e, In e entries /\
                  Log.device r = device e /\
                  Log.success r = int_of_bool (success e) /\
                  Log.reason r = reason e /\
                  Log.timestamp r = timestamp e /\
                  Log.txHash r = tx_hash e) added.
Proof.
  induction entries as [|a entries IH]; intros k db; simpl.
  - exists []. rewrite app_nil_r. split; [reflexivity | constructor].
  - pose proof (insert_log_effect (sqlite3_at env k) (time_at env k)
                  (device a) (success a) (reason a) (timestamp a) (tx_hash a)
                  db) as He.
    assert (Hweak : forall added,
               Forall (fun r =>
                         exists e, In e entries /\
                           Log.device r = device e /\
                           Log.success r = int_of_bool (success e) /\
                           Log.reason r = reason e /\
                           Log.timestamp r = timestamp e /\
                           Log.txHash r = tx_hash e) added ->
               Forall (fun r =>
                         exists e, In e (a :: entries) /\
                           Log.device r = device e /\
                           Log.success r = int_of_bool (success e) /\
                           Log.reason r = reason e /\
                           Log.timestamp r = timestamp e /\
                           Log.txHash r = tx_hash e) added).
    { intros added H. eapply Forall_impl; [|exact H].
      intros r (e & Hin & Hr). exists e. split; [right; exact Hin | exact Hr]. }
    destruct (insert_log (sqlite3_at env k) (time_at env k) (device a)
                (success a) (reason a) (timestamp a) (tx_hash a) db)
      as [[b | e] db1]; simpl in He; destruct He as (_ & _ & Hl).
    + destruct (IH (S k) db1) as (added & Hl' & Hin). simpl.
      destruct Hl as [Hl | [_ Hl]]; rewrite Hl in Hl'.
      * exists added. split; [exact Hl' | apply Hweak; exact Hin].
      * rewrite <- app_assoc in Hl'. simpl in Hl'.
        eexists. split; [exact Hl'|].
        constructor; [|apply Hweak; exact Hin].
        exists a. simpl. repeat split; auto.
    + simpl. destruct Hl as [Hl | [_ Hl]]; rewrite Hl.
      * exists []. rewrite app_nil_r. split; [reflexivity | constructor].
      * eexists. split; [reflexivity|].
        constructor; [|constructor]. exists a. simpl. repeat split; auto.
Qed.

(** X22. Every row [sync_cache] adds to the cache holds one of the fetched
    events: the event's device, reason, timestamp and transaction hash, with
    [''] or 0 for an argument the event lacks, and [success] as 1 or 0, an
    event without a [success] argument counting as successful. *)
Theorem sync_cache_rows_hold_events :
  forall (env : Env) (events : list EventEntry) (db : DeviceDB),
    exists added,
      logs (snd (sync_cache env (AllEntries events) db)) = logs db ++ added /\
      Forall (fun r => exists event, In event events /\ cached_from event r)
        added.
Proof.
  intros env events db. rewrite sync_cache_entries.
  destruct (insert_logs_mirror env (map log_entry_of events) 0%nat db)
    as (added & Hl & Hin).
  exists added. split; [exact Hl|].
  eapply Forall_impl; [|exact Hin].
  intros r (e & He & Hr). apply in_map_iff in He.
  destruct He as (event & <- & Hevent).
  exists event. split; [exact Hevent | exact Hr].
Qed.
